(** * interactive-json-tree: the recursive tree renderer, embedded and verified

    The repository holds two near-duplicate renderers:
    - [src/json_tree/__init__.py]              (minimal, no truncation), and
    - [src/interactive_json_tree/__init__.py]  (extended: [max_children],
      [max_string_length]).

    Both walk a Python object graph and build an HTML string out of
    [<details>]/[<summary>] sections and [<div class="jt-leaf">] lines while
    threading one mutable [seen] set of container identities.

    The embedding keeps the shape of the source:
    - Python objects live in a heap [gmap addr container]; a value is either a
      primitive or a reference [VRef a] to a container, so [id(obj)] is the
      address, aliasing and reference cycles are expressible;
    - the [seen] set is a [gset addr] passed in and returned (the source
      mutates one shared set);
    - the source recurses once per level of nesting and has no guard of its
      own, so the interpreter's recursion limit ([sys.getrecursionlimit()],
      1000 frames by default, some of them taken by the caller) bounds the
      nesting it can render.  The parameter [fuel] is that bound: the number
      of calls on containers not yet seen that may still be nested;
    - a call that raises returns [None]: [RecursionError] when [fuel] is used
      up, [ValueError] when [islice] is handed a [max_children] beyond
      [sys.maxsize]; the model does not tell the two apart.  ([None] is also
      the result on a reference that leaves the heap, which an object graph
      never holds.)  [to_html_total_gen] shows that the render returns when
      [fuel] covers the containers not yet seen and [islice] accepts
      [max_children];
    - the output is a [string], built from the same f-string templates. *)

From Stdlib Require Import ZArith Ascii String Lia.
From stdpp Require Import gmap strings pretty list.

Local Open Scope string_scope.
Local Open Scope Z_scope.

(** ** Python values *)

(** The characters [str(float)] is made of: digits, the point, the exponent
    mark and signs, and the letters of [inf] and [nan]. *)
Inductive fchar : Type :=
| F0 | F1 | F2 | F3 | F4 | F5 | F6 | F7 | F8 | F9
| Fdot | Fe | Fplus | Fminus | Fi | Fn | Ff | Fa.

(** The character itself. *)
Definition fchar_ascii (c : fchar) : ascii :=
  match c with
  | F0 => "0" | F1 => "1" | F2 => "2" | F3 => "3" | F4 => "4"
  | F5 => "5" | F6 => "6" | F7 => "7" | F8 => "8" | F9 => "9"
  | Fdot => "." | Fe => "e" | Fplus => "+" | Fminus => "-"
  | Fi => "i" | Fn => "n" | Ff => "f" | Fa => "a"
  end%char.

(** The text of a float, as a string. *)
Fixpoint float_str (text : list fchar) : string :=
  match text with
  | [] => EmptyString
  | c :: text' => String (fchar_ascii c) (float_str text')
  end.

(** Primitive (non-container) objects.  A [str] is a sequence of characters,
    one [ascii] each; a float is carried with the text [str(float)] gives; any
    other object ([bytes], a user class, ...) is carried with its [repr].  An
    int is printed in decimal whatever its size, whereas CPython 3.11 and
    later raises [ValueError] on one of more than 4300 digits: see
    [printable]. *)
Inductive prim : Type :=
| PStr (s : string)
| PNone
| PBool (b : bool)
| PInt (z : Z)
| PFloat (text : list fchar)
| POther (repr : string).

(** Object identity of a container: the result of [id(obj)]. *)
Definition addr := nat.

(** A value: a primitive, or a reference to a container of the heap. *)
Inductive value : Type :=
| VPrim (p : prim)
| VRef (a : addr).

(** A key as handed to [key=...]: [None], a string-like key, or an integer
    (a dict key or the index produced by [enumerate]). *)
Inductive pykey : Type :=
| KNone
| KStr (s : string)
| KInt (z : Z).

(** Containers: a [Mapping] keeps its items in insertion order, a [Sequence]
    its elements in index order. *)
Inductive container : Type :=
| CMap (items : list (pykey * value))
| CSeq (items : list value).

Abbreviation heap := (gmap addr container).

(** ** Library functions used by the renderers *)

(** The double-quote character, and a string holding just it. *)
Definition dquote : ascii := "034"%char.
Definition q : string := String dquote "".

(** [html.escape(s, quote=False)]: [&], [<] and [>] are replaced, in that
    order; done character by character the three replacements commute. *)
Definition escape_char (c : ascii) : string :=
  if Ascii.eqb c "&" then "&amp;"
  else if Ascii.eqb c "<" then "&lt;"
  else if Ascii.eqb c ">" then "&gt;"
  else String c "".

Fixpoint html_escape (s : string) : string :=
  match s with
  | EmptyString => ""
  | String c s' => escape_char c +:+ html_escape s'
  end.

(** [str(k)] and [f"{k}"] of a key. *)
Definition str_key (k : pykey) : string :=
  match k with
  | KNone => "None"
  | KStr s => s
  | KInt z => pretty z
  end.

(** [isinstance] tests on primitives; [bool] is a subclass of [int]. *)
Definition isinstance_str (v : prim) : bool :=
  match v with PStr _ => true | _ => false end.
Definition is_None (v : prim) : bool :=
  match v with PNone => true | _ => false end.
Definition isinstance_bool (v : prim) : bool :=
  match v with PBool _ => true | _ => false end.
Definition isinstance_int_float (v : prim) : bool :=
  match v with PBool _ | PInt _ | PFloat _ => true | _ => false end.

(** [str(v)], which is also [f"{v}"]. *)
Definition py_str (v : prim) : string :=
  match v with
  | PStr s => s
  | PNone => "None"
  | PBool true => "True"
  | PBool false => "False"
  | PInt z => pretty z
  | PFloat t => float_str t
  | POther r => r
  end.

(** Truth value of an object. *)
Definition py_truth (v : prim) : bool :=
  match v with
  | PStr s => negb (String.eqb s "")
  | PNone => false
  | PBool b => b
  | PInt z => negb (z =? 0)
  | PFloat _ => true
  | POther _ => true
  end.

(** [repr(v)].  The renderers take it only of a value that fails every
    [isinstance] test, that is, of a [POther]; for a [str] the quoting shown
    is that of a text without quotes or escapes. *)
Definition py_repr (v : prim) : string :=
  match v with
  | PStr s => "'" +:+ s +:+ "'"
  | _ => py_str v
  end.

(** [len(v)] and [v[:n]] on a [str]. *)
Definition py_len (s : string) : Z := Z.of_nat (String.length s).
Definition py_slice_to (n : Z) (s : string) : string :=
  String.substring 0 (Z.to_nat n) s.

(** [f"{level * _INDENT_REM}"] with [_INDENT_REM = 0.5]: the product is a
    float that is an exact multiple of one half, printed as [k.0] or [k.5]
    (for every level below 2 * 10^16, where [str(float)] changes notation). *)
Definition indent_rem (level : nat) : string :=
  pretty (Nat.div level 2) +:+ (if Nat.even level then ".0" else ".5").

(** [sys.maxsize] of a 64-bit interpreter. *)
Definition sys_maxsize : Z := 2 ^ 63 - 1.

(** [islice(xs, stop)] with an integer [stop], run to its end: the first
    [stop] elements.  [None] stands for the [ValueError] that [islice] raises
    when it is called with a [stop] outside [0 <= stop <= sys.maxsize]. *)
Definition islice {A} (xs : list A) (stop : Z) : option (list A) :=
  if (0 <=? stop) && (stop <=? sys_maxsize) then Some (take (Z.to_nat stop) xs)
  else None.

(** [items_iter] (and [iterable], for a sequence) as the loop finds it: the
    result of [islice(xs, max_children)] when the guard [max_children is not
    None and max_children >= 0] holds, all of [xs] otherwise. *)
Definition items_iter {A} (xs : list A) (max_children : option Z)
    : option (list A) :=
  match max_children with
  | Some m => if 0 <=? m then islice xs m else Some xs
  | None => Some xs
  end.

(** [enumerate(xs)]. *)
Definition enumerate {A} (xs : list A) : list (pykey * A) :=
  imap (fun i x => (KInt (Z.of_nat i), x)) xs.

(** [isinstance(obj, Mapping)], [isinstance(obj, Sequence) and not
    isinstance(obj, (str, bytes, bytearray))], looked up through the heap. *)
Inductive shape : Type :=
| IsMapping (items : list (pykey * value))
| IsSequence (items : list value)
| IsPrimitive (p : prim).

(** The classification of a value, with the children of a container. *)
Definition classify (h : heap) (obj : value) : option shape :=
  match obj with
  | VPrim p => Some (IsPrimitive p)
  | VRef a =>
      match h !! a with
      | Some (CMap items) => Some (IsMapping items)
      | Some (CSeq items) => Some (IsSequence items)
      | None => None
      end
  end.

(** The [for ... in ...: rows.append(...)] loops: the body renders one child
    in the current [seen] set and hands the set on. *)
Fixpoint for_rows {A R} (body : A -> gset addr -> option (R * gset addr))
    (xs : list A) (seen : gset addr) : option (list R * gset addr) :=
  match xs with
  | [] => Some ([], seen)
  | x :: xs' =>
      match body x seen with
      | None => None
      | Some (row, seen1) =>
          match for_rows body xs' seen1 with
          | None => None
          | Some (rows, seen2) => Some (row :: rows, seen2)
          end
      end
  end.

(** [max(expand_depth - 1, 0)]. *)
Definition next_depth (expand_depth : Z) : Z := Z.max (expand_depth - 1) 0.

(** The fixed fragment returned on a revisit. *)
Definition CIRCULAR : string :=
  "<div class=" +:+ q +:+ "jt-leaf" +:+ q +:+ "><em>[Circular]</em></div>".

(** A keyword argument at a call site: left out, or given a value. *)
Inductive kwarg (A : Type) : Type :=
| Omitted
| Given (x : A).
Arguments Omitted {A}.
Arguments Given {A} x.

(** The value a parameter takes: the default when the argument is left out. *)
Definition kw_default {A} (d : A) (k : kwarg A) : A :=
  match k with Omitted => d | Given x => x end.

(** A line break. *)
Definition nl : string := String "010"%char "".

(** [f"jt-{uuid.uuid4().hex[:8]}"]: the eight hexadecimal digits of the fresh
    uuid are an input of the model. *)
Definition make_uid (hex8 : string) : string := "jt-" +:+ hex8.

(** One line [#{uid}<rest>] of the style sheet, and one indented by two
    blanks (inside the [@media] block). *)
Definition css (uid rest : string) : string := "#" +:+ uid +:+ rest +:+ nl.
Definition css2 (uid rest : string) : string := "  #" +:+ uid +:+ rest +:+ nl.

(** ** The extended renderer: [interactive_json_tree/__init__.py] *)
Module interactive_json_tree.

(** [esc(x)]: [html.escape(str(x), quote=False)]; [x] arrives as [str(x)]. *)
Definition esc (x : string) : string := html_escape x.

(** [key_prefix_html(k, is_index)] (lines 87-92): nothing for [None],
    [[k]] unescaped for an index, the escaped key in quotes otherwise. *)
Definition key_prefix_html (k : pykey) (is_index : bool) : string :=
  match k with
  | KNone => ""
  | _ =>
      if is_index then
        "<span class=" +:+ q +:+ "jt-key" +:+ q +:+ ">[" +:+ str_key k
        +:+ "]</span><span class=" +:+ q +:+ "jt-punct" +:+ q +:+ ">: </span>"
      else
        "<span class=" +:+ q +:+ "jt-key" +:+ q +:+ ">" +:+ q +:+ esc (str_key k) +:+ q
        +:+ "</span><span class=" +:+ q +:+ "jt-punct" +:+ q +:+ ">: </span>"
  end.

(** The guard of the truncation (lines 96-100): [max_string_length is not
    None and max_string_length >= 0 and len(v) > max_string_length]. *)
Definition string_too_long (max_string_length : option Z) (s : string) : bool :=
  match max_string_length with
  | Some m => (0 <=? m) && (m <? py_len s)
  | None => false
  end.

(** [fmt_primitive(v)] (lines 94-110), a closure over [max_string_length]. *)
Definition fmt_primitive (max_string_length : option Z) (v : prim) : string :=
  if isinstance_str v then
    if string_too_long max_string_length (py_str v) then
      let truncated :=
        py_slice_to (default 0 max_string_length) (py_str v) in
      "<span class=" +:+ q +:+ "jt-str jt-str-trunc" +:+ q +:+ ">" +:+ q
      +:+ esc truncated +:+ "..." +:+ q +:+ "</span>"
    else
      "<span class=" +:+ q +:+ "jt-str" +:+ q +:+ ">" +:+ q
      +:+ esc (py_str v) +:+ q +:+ "</span>"
  else if is_None v then
    "<span class=" +:+ q +:+ "jt-null" +:+ q +:+ ">null</span>"
  else if isinstance_bool v then
    "<span class=" +:+ q +:+ "jt-bool" +:+ q +:+ ">"
    +:+ (if py_truth v then "true" else "false") +:+ "</span>"
  else if isinstance_int_float v then
    "<span class=" +:+ q +:+ "jt-num" +:+ q +:+ ">" +:+ py_str v +:+ "</span>"
  else
    "<span>" +:+ esc (py_repr v) +:+ "</span>".

(** [<div class="jt-leaf" style="margin-left:{...}rem">{prefix}{value}</div>] *)
Definition leaf_row (max_string_length : option Z) (level : nat)
    (k : pykey) (is_index : bool) (v : prim) : string :=
  "<div class=" +:+ q +:+ "jt-leaf" +:+ q +:+ " style=" +:+ q +:+ "margin-left:"
  +:+ indent_rem level +:+ "rem" +:+ q +:+ ">"
  +:+ key_prefix_html k is_index +:+ fmt_primitive max_string_length v +:+ "</div>".

(** [visible = min(size, max_children)] under the same guard as [islice]. *)
Definition visible_count (max_children : option Z) (size : Z) : Z :=
  match max_children with
  | Some m => if 0 <=? m then Z.min size m else size
  | None => size
  end.

(** [f"{visible}/{size}" if visible != size else str(size)]. *)
Definition count_display (visible size : Z) : string :=
  if negb (visible =? size) then pretty visible +:+ "/" +:+ pretty size
  else pretty size.

(** The ["... N more item(s)"] row, appended when [size > visible]. *)
Definition more_row (level : nat) (remaining : Z) : string :=
  "<div class=" +:+ q +:+ "jt-more" +:+ q +:+ " style=" +:+ q +:+ "margin-left:"
  +:+ indent_rem (level + 1) +:+ "rem" +:+ q +:+ ">"
  +:+ "<em>... " +:+ pretty remaining +:+ " more item"
  +:+ (if negb (remaining =? 1) then "s" else "") +:+ "</em></div>".

(** [if size > visible: rows.append(...)]: the rows this adds. *)
Definition more_rows (level : nat) (size visible : Z) : list string :=
  if visible <? size then [more_row level (size - visible)] else [].

(** The [<details>] block around the joined rows. *)
Definition details (expand_depth : Z) (level : nat) (summary_label : string)
    (rows : list string) : string :=
  let open_attr := if 0 <? expand_depth then " open" else "" in
  "<details class=" +:+ q +:+ "jt-details" +:+ q +:+ open_attr +:+ " style=" +:+ q
  +:+ "margin-left:" +:+ indent_rem level +:+ "rem" +:+ q +:+ ">"
  +:+ "<summary class=" +:+ q +:+ "jt-summary" +:+ q +:+ ">" +:+ summary_label
  +:+ "</summary>"
  +:+ String.concat "" rows
  +:+ "</details>".

(** The label of the header: key prefix, type tag ([{} Object ] or
    [[] Array ]), and the count in a [jt-punct] span. *)
Definition summary_label (k : pykey) (is_index : bool) (tag : string)
    (visible size : Z) : string :=
  key_prefix_html k is_index +:+ tag +:+ "<span class=" +:+ q +:+ "jt-punct" +:+ q
  +:+ ">(" +:+ count_display visible size +:+ ")</span>".

(** One iteration of the loop over the children of a container at [level];
    [rec] is the recursive call with [expand_depth], [level + 1],
    [max_children] and [max_string_length] already supplied.  The loop over
    [obj.items()] runs it with [is_index = false], the loop over
    [enumerate(obj)] with [is_index = true]. *)
Definition child_row (h : heap)
    (rec : value -> gset addr -> pykey -> bool -> option (string * gset addr))
    (max_string_length : option Z) (level : nat) (is_index : bool)
    (kv : pykey * value) (seen : gset addr) : option (string * gset addr) :=
  let '(k, v) := kv in
  match classify h v with
  | None => None
  | Some (IsMapping _) => rec v seen k is_index
  | Some (IsSequence _) => rec v seen k is_index
  | Some (IsPrimitive p) =>
      Some ("<div class=" +:+ q +:+ "jt-leaf" +:+ q +:+ " style=" +:+ q
            +:+ "margin-left:" +:+ indent_rem (level + 1) +:+ "rem" +:+ q +:+ ">"
            +:+ key_prefix_html k is_index +:+ fmt_primitive max_string_length p
            +:+ "</div>", seen)
  end.

(** [_to_html] (lines 64-258).  [None] stands for a call that raises:
    [RecursionError] when a container not yet seen is met with no [fuel]
    left, [ValueError] when [islice] refuses [max_children] (and for a
    reference that leaves the heap); the [seen] set returned is the shared
    set as the call leaves it. *)
Fixpoint _to_html (fuel : nat) (h : heap) (obj : value) (expand_depth : Z)
    (level : nat) (seen : gset addr) (key : pykey) (key_is_index : bool)
    (max_children max_string_length : option Z) {struct fuel}
    : option (string * gset addr) :=
  match obj with
  | VRef a =>
      match h !! a with
      | None => None
      | Some c =>
          (* Only track containers for circular refs *)
          if decide (a ∈ seen) then Some (CIRCULAR, seen)
          else
            match fuel with
            | O => None
            | S fuel' =>
                let seen := {[a]} ∪ seen in
                let rec v seen k is_index :=
                  _to_html fuel' h v (next_depth expand_depth) (level + 1) seen
                           k is_index max_children max_string_length in
                match c with
                | CMap items =>
                    (* ----- dict ----- *)
                    let size := Z.of_nat (length items) in
                    let visible := visible_count max_children size in
                    let label :=
                      summary_label key key_is_index "{} Object " visible size in
                    match items_iter items max_children with
                    | None => None
                    | Some items_iter =>
                        match for_rows (child_row h rec max_string_length level false)
                                       items_iter seen with
                        | None => None
                        | Some (rows, seen') =>
                            Some (details expand_depth level label
                                    (rows ++ more_rows level size visible), seen')
                        end
                    end
                | CSeq items =>
                    (* ----- list/tuple ----- *)
                    let size := Z.of_nat (length items) in
                    let visible := visible_count max_children size in
                    let label :=
                      summary_label key key_is_index "[] Array " visible size in
                    match items_iter (enumerate items) max_children with
                    | None => None
                    | Some iterable =>
                        match for_rows (child_row h rec max_string_length level true)
                                       iterable seen with
                        | None => None
                        | Some (rows, seen') =>
                            Some (details expand_depth level label
                                    (rows ++ more_rows level size visible), seen')
                        end
                    end
                end
            end
      end
  | VPrim p =>
      (* ----- primitive leaf ----- *)
      match key with
      | KNone =>
          Some ("<div class=" +:+ q +:+ "jt-leaf" +:+ q +:+ " style=" +:+ q
                +:+ "margin-left:" +:+ indent_rem level +:+ "rem" +:+ q +:+ ">"
                +:+ fmt_primitive max_string_length p +:+ "</div>", seen)
      | _ =>
          Some ("<div class=" +:+ q +:+ "jt-leaf" +:+ q +:+ " style=" +:+ q
                +:+ "margin-left:" +:+ indent_rem level +:+ "rem" +:+ q +:+ ">"
                +:+ key_prefix_html key key_is_index
                +:+ fmt_primitive max_string_length p +:+ "</div>", seen)
      end
  end.

(** The style sheet (lines 309-345); the two markers are written as the
    bytes of their UTF-8 encoding. *)
Definition style (uid : string) : string :=
  nl +:+ "<style>" +:+ nl
  +:+ css uid " {"
  +:+ "  font-family: ui-monospace, SFMono-Regular, Menlo, Consolas, monospace;" +:+ nl
  +:+ "  font-size: 13px; line-height: 1.45;" +:+ nl
  +:+ "}" +:+ nl
  +:+ css uid " summary {"
  +:+ "  cursor: pointer;" +:+ nl
  +:+ "  list-style: none;" +:+ nl
  +:+ "  display: inline-flex;" +:+ nl
  +:+ "  align-items: baseline;" +:+ nl
  +:+ "  gap: 0.25rem;" +:+ nl
  +:+ "}" +:+ nl
  +:+ css uid " summary::-webkit-details-marker { display: none; }"
  +:+ css uid " .jt-summary::before {"
  +:+ "  content: " +:+ q +:+ "▸" +:+ q +:+ ";" +:+ nl
  +:+ "  display: inline-block;" +:+ nl
  +:+ "  width: 1em;" +:+ nl
  +:+ "  color: #94a3b8;" +:+ nl
  +:+ "}" +:+ nl
  +:+ css uid (" details[open] > .jt-summary::before { content: " +:+ q +:+ "▾" +:+ q +:+ "; }")
  +:+ nl
  +:+ css uid " .jt-key   { color: #1f2937; }"
  +:+ css uid " .jt-punct { color: #94a3b8; }"
  +:+ css uid " .jt-str   { color: #059669; }"
  +:+ css uid " .jt-str-trunc { color: #dc2626; }"
  +:+ css uid " .jt-num   { color: #b45309; }"
  +:+ css uid " .jt-bool  { color: #2563eb; }"
  +:+ css uid " .jt-null  { color: #dc2626; }"
  +:+ css uid " .jt-more  { color: #94a3b8; }"
  +:+ "@media (prefers-color-scheme: dark) {" +:+ nl
  +:+ css2 uid " .jt-key { color: #e5e7eb; }"
  +:+ css2 uid " .jt-str-trunc { color: #f87171; }"
  +:+ css2 uid " .jt-more { color: #64748b; }"
  +:+ "}" +:+ nl
  +:+ "</style>" +:+ nl.

(** [json_to_html_tree(obj, *, key=None, expand_depth=1, max_children=100,
    max_string_length=2000)]; the result is [None] when [_to_html] raises. *)
Definition json_to_html_tree (hex8 : string) (fuel : nat) (h : heap) (obj : value)
    (key : kwarg pykey) (expand_depth : kwarg Z)
    (max_children max_string_length : kwarg (option Z)) : option string :=
  let key := kw_default KNone key in
  let expand_depth := kw_default 1 expand_depth in
  let max_children := kw_default (Some 100) max_children in
  let max_string_length := kw_default (Some 2000) max_string_length in
  let uid := make_uid hex8 in
  match _to_html fuel h obj expand_depth 0 ∅ key false
                 max_children max_string_length with
  | None => None
  | Some (body, _) =>
      Some (style uid +:+ "<div id=" +:+ q +:+ uid +:+ q +:+ " class=" +:+ q +:+ "jt"
            +:+ q +:+ ">" +:+ body +:+ "</div>")
  end.

(** [JSON(data, *, expand_depth=1, max_children=100, max_string_length=2000)]:
    the constructor stores [rendered], which [_repr_html_] returns. *)
Definition JSON (hex8 : string) (fuel : nat) (h : heap) (data : value)
    (expand_depth : kwarg Z) (max_children max_string_length : kwarg (option Z))
    : option string :=
  let expand_depth := kw_default 1 expand_depth in
  let max_children := kw_default (Some 100) max_children in
  let max_string_length := kw_default (Some 2000) max_string_length in
  json_to_html_tree hex8 fuel h data Omitted (Given expand_depth)
                    (Given max_children) (Given max_string_length).

End interactive_json_tree.

(** ** The minimal renderer: [json_tree/__init__.py] *)
Module json_tree.

(** [esc(x)] (lines 32-33). *)
Definition esc (x : string) : string := html_escape x.

(** [key_prefix_html(k, is_index)] (lines 35-40). *)
Definition key_prefix_html (k : pykey) (is_index : bool) : string :=
  match k with
  | KNone => ""
  | _ =>
      if is_index then
        "<span class=" +:+ q +:+ "jt-key" +:+ q +:+ ">[" +:+ str_key k
        +:+ "]</span><span class=" +:+ q +:+ "jt-punct" +:+ q +:+ ">: </span>"
      else
        "<span class=" +:+ q +:+ "jt-key" +:+ q +:+ ">" +:+ q +:+ esc (str_key k) +:+ q
        +:+ "</span><span class=" +:+ q +:+ "jt-punct" +:+ q +:+ ">: </span>"
  end.

(** [fmt_primitive(v)] (lines 42-51): no truncation. *)
Definition fmt_primitive (v : prim) : string :=
  if isinstance_str v then
    "<span class=" +:+ q +:+ "jt-str" +:+ q +:+ ">" +:+ q
    +:+ esc (py_str v) +:+ q +:+ "</span>"
  else if is_None v then
    "<span class=" +:+ q +:+ "jt-null" +:+ q +:+ ">null</span>"
  else if isinstance_bool v then
    "<span class=" +:+ q +:+ "jt-bool" +:+ q +:+ ">"
    +:+ (if py_truth v then "true" else "false") +:+ "</span>"
  else if isinstance_int_float v then
    "<span class=" +:+ q +:+ "jt-num" +:+ q +:+ ">" +:+ py_str v +:+ "</span>"
  else
    "<span>" +:+ esc (py_repr v) +:+ "</span>".

(** The [<details>] block around the joined rows (lines 102-107, 143-148). *)
Definition details (expand_depth : Z) (level : nat) (summary_label : string)
    (rows : list string) : string :=
  let open_attr := if 0 <? expand_depth then " open" else "" in
  "<details class=" +:+ q +:+ "jt-details" +:+ q +:+ open_attr +:+ " style=" +:+ q
  +:+ "margin-left:" +:+ indent_rem level +:+ "rem" +:+ q +:+ ">"
  +:+ "<summary class=" +:+ q +:+ "jt-summary" +:+ q +:+ ">" +:+ summary_label
  +:+ "</summary>"
  +:+ String.concat "" rows
  +:+ "</details>".

(** The label of the header, with the bare [size] as count. *)
Definition summary_label (k : pykey) (is_index : bool) (tag : string)
    (size : Z) : string :=
  key_prefix_html k is_index +:+ tag +:+ "<span class=" +:+ q +:+ "jt-punct" +:+ q
  +:+ ">(" +:+ pretty size +:+ ")</span>".

(** One iteration of the loop over the children (lines 71-101, 115-142). *)
Definition child_row (h : heap)
    (rec : value -> gset addr -> pykey -> bool -> option (string * gset addr))
    (level : nat) (is_index : bool)
    (kv : pykey * value) (seen : gset addr) : option (string * gset addr) :=
  let '(k, v) := kv in
  match classify h v with
  | None => None
  | Some (IsMapping _) => rec v seen k is_index
  | Some (IsSequence _) => rec v seen k is_index
  | Some (IsPrimitive p) =>
      Some ("<div class=" +:+ q +:+ "jt-leaf" +:+ q +:+ " style=" +:+ q
            +:+ "margin-left:" +:+ indent_rem (level + 1) +:+ "rem" +:+ q +:+ ">"
            +:+ key_prefix_html k is_index +:+ fmt_primitive p
            +:+ "</div>", seen)
  end.

(** [_to_html] (lines 22-157). *)
Fixpoint _to_html (fuel : nat) (h : heap) (obj : value) (expand_depth : Z)
    (level : nat) (seen : gset addr) (key : pykey) (key_is_index : bool)
    {struct fuel} : option (string * gset addr) :=
  match obj with
  | VRef a =>
      match h !! a with
      | None => None
      | Some c =>
          (* Only track containers for circular refs *)
          if decide (a ∈ seen) then Some (CIRCULAR, seen)
          else
            match fuel with
            | O => None
            | S fuel' =>
                let seen := {[a]} ∪ seen in
                let rec v seen k is_index :=
                  _to_html fuel' h v (next_depth expand_depth) (level + 1) seen
                           k is_index in
                match c with
                | CMap items =>
                    let size := Z.of_nat (length items) in
                    let label := summary_label key key_is_index "{} Object " size in
                    match for_rows (child_row h rec level false) items seen with
                    | None => None
                    | Some (rows, seen') =>
                        Some (details expand_depth level label rows, seen')
                    end
                | CSeq items =>
                    let size := Z.of_nat (length items) in
                    let label := summary_label key key_is_index "[] Array " size in
                    match for_rows (child_row h rec level true) (enumerate items) seen with
                    | None => None
                    | Some (rows, seen') =>
                        Some (details expand_depth level label rows, seen')
                    end
                end
            end
      end
  | VPrim p =>
      match key with
      | KNone =>
          Some ("<div class=" +:+ q +:+ "jt-leaf" +:+ q +:+ " style=" +:+ q
                +:+ "margin-left:" +:+ indent_rem level +:+ "rem" +:+ q +:+ ">"
                +:+ fmt_primitive p +:+ "</div>", seen)
      | _ =>
          Some ("<div class=" +:+ q +:+ "jt-leaf" +:+ q +:+ " style=" +:+ q
                +:+ "margin-left:" +:+ indent_rem level +:+ "rem" +:+ q +:+ ">"
                +:+ key_prefix_html key key_is_index
                +:+ fmt_primitive p +:+ "</div>", seen)
      end
  end.

(** The style sheet (lines 171-203): that of the extended renderer without
    the rules for [jt-str-trunc] and [jt-more]. *)
Definition style (uid : string) : string :=
  nl +:+ "<style>" +:+ nl
  +:+ css uid " {"
  +:+ "  font-family: ui-monospace, SFMono-Regular, Menlo, Consolas, monospace;" +:+ nl
  +:+ "  font-size: 13px; line-height: 1.45;" +:+ nl
  +:+ "}" +:+ nl
  +:+ css uid " summary {"
  +:+ "  cursor: pointer;" +:+ nl
  +:+ "  list-style: none;" +:+ nl
  +:+ "  display: inline-flex;" +:+ nl
  +:+ "  align-items: baseline;" +:+ nl
  +:+ "  gap: 0.25rem;" +:+ nl
  +:+ "}" +:+ nl
  +:+ css uid " summary::-webkit-details-marker { display: none; }"
  +:+ css uid " .jt-summary::before {"
  +:+ "  content: " +:+ q +:+ "▸" +:+ q +:+ ";" +:+ nl
  +:+ "  display: inline-block;" +:+ nl
  +:+ "  width: 1em;" +:+ nl
  +:+ "  color: #94a3b8;" +:+ nl
  +:+ "}" +:+ nl
  +:+ css uid (" details[open] > .jt-summary::before { content: " +:+ q +:+ "▾" +:+ q +:+ "; }")
  +:+ nl
  +:+ css uid " .jt-key   { color: #1f2937; }"
  +:+ css uid " .jt-punct { color: #94a3b8; }"
  +:+ css uid " .jt-str   { color: #059669; }"
  +:+ css uid " .jt-num   { color: #b45309; }"
  +:+ css uid " .jt-bool  { color: #2563eb; }"
  +:+ css uid " .jt-null  { color: #dc2626; }"
  +:+ "@media (prefers-color-scheme: dark) {" +:+ nl
  +:+ css2 uid " .jt-key { color: #e5e7eb; }"
  +:+ "}" +:+ nl
  +:+ "</style>" +:+ nl.

(** [json_to_html_tree(obj, *, key=None, expand_depth=1)] (lines 160-204). *)
Definition json_to_html_tree (hex8 : string) (fuel : nat) (h : heap) (obj : value)
    (key : kwarg pykey) (expand_depth : kwarg Z) : option string :=
  let key := kw_default KNone key in
  let expand_depth := kw_default 1 expand_depth in
  let uid := make_uid hex8 in
  match _to_html fuel h obj expand_depth 0 ∅ key false with
  | None => None
  | Some (body, _) =>
      Some (style uid +:+ "<div id=" +:+ q +:+ uid +:+ q +:+ " class=" +:+ q +:+ "jt"
            +:+ q +:+ ">" +:+ body +:+ "</div>")
  end.

(** [JSON(data, expand_depth=1)] (lines 5-14): [rendered], which
    [_repr_html_] returns. *)
Definition JSON (hex8 : string) (fuel : nat) (h : heap) (data : value)
    (expand_depth : kwarg Z) : option string :=
  let expand_depth := kw_default 1 expand_depth in
  json_to_html_tree hex8 fuel h data Omitted (Given expand_depth).

End json_tree.

(** ** The markup as a tree of fragments

    The renderers only ever concatenate four kinds of fragment: a leaf line,
    the revisit marker, the "more items" line, and a [<details>] section
    around the rows of its children.  [_to_markup] runs the recursion of
    [_to_html] and records which fragment each step emits;
    [to_html_serialize] shows that writing the tree out gives back the string
    of [_to_html], character for character. *)
#[warnings="-register-all"]
Inductive markup : Type :=
| MLeaf (level : nat) (key : pykey) (is_index : bool) (value_html : string)
| MCircular
| MMore (level : nat) (remaining : Z)
| MDetails (open : bool) (level : nat) (label : string) (rows : list markup).

(** Writing a fragment tree out, with the templates of the source. *)
Fixpoint serialize (m : markup) : string :=
  match m with
  | MLeaf level k is_index value_html =>
      "<div class=" +:+ q +:+ "jt-leaf" +:+ q +:+ " style=" +:+ q +:+ "margin-left:"
      +:+ indent_rem level +:+ "rem" +:+ q +:+ ">"
      +:+ interactive_json_tree.key_prefix_html k is_index +:+ value_html +:+ "</div>"
  | MCircular => CIRCULAR
  | MMore level remaining =>
      "<div class=" +:+ q +:+ "jt-more" +:+ q +:+ " style=" +:+ q +:+ "margin-left:"
      +:+ indent_rem level +:+ "rem" +:+ q +:+ ">"
      +:+ "<em>... " +:+ pretty remaining +:+ " more item"
      +:+ (if negb (remaining =? 1) then "s" else "") +:+ "</em></div>"
  | MDetails open level label rows =>
      "<details class=" +:+ q +:+ "jt-details" +:+ q
      +:+ (if open then " open" else "") +:+ " style=" +:+ q
      +:+ "margin-left:" +:+ indent_rem level +:+ "rem" +:+ q +:+ ">"
      +:+ "<summary class=" +:+ q +:+ "jt-summary" +:+ q +:+ ">" +:+ label
      +:+ "</summary>"
      +:+ String.concat "" (map serialize rows)
      +:+ "</details>"
  end.

Module markup_view.
Import interactive_json_tree.

(** The "more items" row, as a fragment. *)
Definition more_rows (level : nat) (size visible : Z) : list markup :=
  if visible <? size then [MMore (level + 1) (size - visible)] else [].

(** One iteration of the loop, as a fragment. *)
Definition child_row (h : heap)
    (rec : value -> gset addr -> pykey -> bool -> option (markup * gset addr))
    (max_string_length : option Z) (level : nat) (is_index : bool)
    (kv : pykey * value) (seen : gset addr) : option (markup * gset addr) :=
  let '(k, v) := kv in
  match classify h v with
  | None => None
  | Some (IsMapping _) => rec v seen k is_index
  | Some (IsSequence _) => rec v seen k is_index
  | Some (IsPrimitive p) =>
      Some (MLeaf (level + 1) k is_index (fmt_primitive max_string_length p), seen)
  end.

(** The recursion of [interactive_json_tree._to_html], fragment by fragment. *)
Fixpoint _to_markup (fuel : nat) (h : heap) (obj : value) (expand_depth : Z)
    (level : nat) (seen : gset addr) (key : pykey) (key_is_index : bool)
    (max_children max_string_length : option Z) {struct fuel}
    : option (markup * gset addr) :=
  match obj with
  | VRef a =>
      match h !! a with
      | None => None
      | Some c =>
          if decide (a ∈ seen) then Some (MCircular, seen)
          else
            match fuel with
            | O => None
            | S fuel' =>
                let seen := {[a]} ∪ seen in
                let rec v seen k is_index :=
                  _to_markup fuel' h v (next_depth expand_depth) (level + 1) seen
                             k is_index max_children max_string_length in
                match c with
                | CMap items =>
                    let size := Z.of_nat (length items) in
                    let visible := visible_count max_children size in
                    let label :=
                      summary_label key key_is_index "{} Object " visible size in
                    match items_iter items max_children with
                    | None => None
                    | Some items_iter =>
                        match for_rows (child_row h rec max_string_length level false)
                                       items_iter seen with
                        | None => None
                        | Some (rows, seen') =>
                            Some (MDetails (0 <? expand_depth) level label
                                    (rows ++ more_rows level size visible), seen')
                        end
                    end
                | CSeq items =>
                    let size := Z.of_nat (length items) in
                    let visible := visible_count max_children size in
                    let label :=
                      summary_label key key_is_index "[] Array " visible size in
                    match items_iter (enumerate items) max_children with
                    | None => None
                    | Some iterable =>
                        match for_rows (child_row h rec max_string_length level true)
                                       iterable seen with
                        | None => None
                        | Some (rows, seen') =>
                            Some (MDetails (0 <? expand_depth) level label
                                    (rows ++ more_rows level size visible), seen')
                        end
                    end
                end
            end
      end
  | VPrim p =>
      Some (MLeaf level key key_is_index (fmt_primitive max_string_length p), seen)
  end.

End markup_view.

(** * Vocabulary of the properties *)

(** A limit that switches truncation off: [None], or a negative integer. *)
Definition unlimited (limit : option Z) : Prop :=
  match limit with
  | None => True
  | Some m => m < 0
  end.

(** A [max_children] that the loop accepts: [None], a negative integer (the
    guard then leaves [islice] out), or an integer up to [sys.maxsize]. *)
Definition limit_ok (max_children : option Z) : Prop :=
  match max_children with
  | Some m => m <= sys_maxsize
  | None => True
  end.

Global Instance limit_ok_dec mc : Decision (limit_ok mc).
Proof. destruct mc; simpl; apply _. Defined.

(** The children a render under [max_children] shows: the first
    [max_children] of them, or all of them when the limit is off. *)
Definition shown {A} (xs : list A) (max_children : option Z) : list A :=
  match max_children with
  | Some m => if 0 <=? m then take (Z.to_nat m) xs else xs
  | None => xs
  end.

(** [needle] occurs somewhere inside [s]. *)
Definition contains (needle s : string) : Prop :=
  exists pre post, s = pre +:+ needle +:+ post.

(** Number of positions of [s] at which [pat] starts. *)
Fixpoint occ (pat s : string) : nat :=
  match s with
  | EmptyString => 0
  | String c s' => ((if String.prefix pat s then 1 else 0) + occ pat s')%nat
  end.

(** A list that contains itself and, next to it, a string. *)
Definition heap_self_list : heap :=
  {[ 0%nat := CSeq [VRef 0%nat; VPrim (PStr "x")] ]}.


(** The values stored in a container, in order. *)
Definition children (c : container) : list value :=
  match c with
  | CMap items => items.*2
  | CSeq items => items
  end.

(** A value is part of the heap: a reference points to a container. *)
Definition value_in_heap (h : heap) (v : value) : Prop :=
  match v with
  | VPrim _ => True
  | VRef a => is_Some (h !! a)
  end.

Global Instance value_in_heap_dec h v : Decision (value_in_heap h v).
Proof. destruct v; simpl; apply _. Defined.

(** Every reference stored in a container of the heap points into the heap:
    the object graph is finite and has no dangling reference. *)
Definition heap_closed (h : heap) : Prop :=
  map_Forall (fun _ c => Forall (value_in_heap h) (children c)) h.

(** Two dicts that refer to each other. *)
Definition heap_mutual : heap :=
  {[ 0%nat := CMap [(KStr "b", VRef 1%nat)];
     1%nat := CMap [(KStr "a", VRef 0%nat)] ]}.

(** What the loop of a container iterates over, before [islice]: the items of
    a mapping, the enumerated elements of a sequence; and the label format
    and type tag that go with it. *)
Definition kv_items (c : container) : list (pykey * value) :=
  match c with
  | CMap items => items
  | CSeq items => enumerate items
  end.

(** Whether the keys of the children are printed as indices. *)
Definition is_seq (c : container) : bool :=
  match c with CMap _ => false | CSeq _ => true end.

(** The type tag of the header. *)
Definition type_tag (c : container) : string :=
  match c with CMap _ => "{} Object " | CSeq _ => "[] Array " end.

(** [[1, 2, 3]] *)
Definition heap_three : heap :=
  {[ 0%nat := CSeq [VPrim (PInt 1); VPrim (PInt 2); VPrim (PInt 3)] ]}.

(** The sections of a fragment tree, each with its nesting depth (the root
    section has depth [d]) and whether it carries the [open] attribute. *)
Fixpoint sections_at (d : nat) (m : markup) : list (nat * bool) :=
  match m with
  | MDetails open _ _ rows => (d, open) :: flat_map (sections_at (S d)) rows
  | _ => []
  end.

(** A fragment tree whose levels follow the nesting: a section at [level]
    holds rows of [level + 1]; the revisit marker has no level at all. *)
#[warnings="-register-all"]
Inductive indented : nat -> markup -> Prop :=
| indented_leaf l k i v : indented l (MLeaf l k i v)
| indented_circular l : indented l MCircular
| indented_more l r : indented l (MMore l r)
| indented_details o l label rows :
    Forall (indented (S l)) rows -> indented l (MDetails o l label rows).





(** Fragment counts of a fragment tree: revisit markers first. *)
Fixpoint circulars (m : markup) : nat :=
  match m with
  | MCircular => 1
  | MDetails _ _ _ rows => sum_list (map circulars rows)
  | _ => 0
  end.

(** Sections, each with its one header. *)
Fixpoint headers (m : markup) : nat :=
  match m with
  | MDetails _ _ _ rows => S (sum_list (map headers rows))
  | _ => 0
  end.

(** Leaf lines of primitives. *)
Fixpoint leaves (m : markup) : nat :=
  match m with
  | MLeaf _ _ _ _ => 1
  | MDetails _ _ _ rows => sum_list (map leaves rows)
  | _ => 0
  end.

(** The three tags that identify a fragment in the output: the revisit
    marker, the header of a section, and the opening of a leaf line (which
    the revisit marker has as well). *)
Inductive tag : Type := TagCircular | TagSummary | TagLeaf.

(** The text of a tag, as it stands in the output. *)
Definition pattern_of (t : tag) : string :=
  match t with
  | TagCircular => "<em>[Circular]</em>"
  | TagSummary => "<summary "
  | TagLeaf => "<div class=" +:+ q +:+ "jt-leaf" +:+ q
  end.

(** How often a tag is written when a fragment tree is serialized. *)
Definition count_tag (t : tag) (m : markup) : nat :=
  match t with
  | TagCircular => circulars m
  | TagSummary => headers m
  | TagLeaf => (leaves m + circulars m)%nat
  end.

(** [lt_free s]: the character [<] does not occur in [s]. *)
Fixpoint lt_free (s : string) : bool :=
  match s with
  | EmptyString => true
  | String c s' => negb (Ascii.eqb c "<") && lt_free s'
  end.

(** [settled pat v]: whether [pat] starts at the beginning of [v] does not
    depend on what follows [v]: [pat] either ends within [v] or differs from
    it at some character. *)
Fixpoint settled (pat v : string) : bool :=
  match pat with
  | EmptyString => true
  | String a p =>
      match v with
      | EmptyString => false
      | String b v' => if Ascii.eqb a b then settled p v' else true
      end
  end.

(** [sealed pat s]: no occurrence of [pat] can start inside [s] and end
    beyond it. *)
Fixpoint sealed (pat s : string) : bool :=
  match s with
  | EmptyString => true
  | String c s' => settled pat s && sealed pat s'
  end.

(** [s] is closed off for [pat] and holds [n] occurrences of it. *)
Definition counted (pat s : string) (n : nat) : Prop :=
  sealed pat s = true /\ occ pat s = n.

(** [s] holds none of the three tags, whatever it is put next to. *)
Definition inert (s : string) : Prop :=
  forall t, counted (pattern_of t) s 0.

(** The check that decides [inert] on a literal. *)
Definition inertb (s : string) : bool :=
  forallb (fun t => sealed (pattern_of t) s && Nat.eqb (occ (pattern_of t) s) 0)
    [TagCircular; TagSummary; TagLeaf].

(** Keys that [key_prefix_html] prints without escaping are indices. *)
Definition key_ok (k : pykey) (is_index : bool) : Prop :=
  is_index = true -> forall s, k <> KStr s.

(** A fragment tree whose labels and values hold none of the three tags, as
    is the case for everything the renderer writes. *)
#[warnings="-register-all"]
Inductive rendered : markup -> Prop :=
| rendered_leaf l k i v :
    inert (interactive_json_tree.key_prefix_html k i) -> inert v ->
    rendered (MLeaf l k i v)
| rendered_circular : rendered MCircular
| rendered_more l r : rendered (MMore l r)
| rendered_details o l label rows :
    inert label -> Forall rendered rows -> rendered (MDetails o l label rows).

(** The closed openings of the four fragments. *)
Definition LEAF_OPEN : string := "<div class=" +:+ q +:+ "jt-leaf" +:+ q.
Definition MORE_OPEN : string := "<div class=" +:+ q +:+ "jt-more" +:+ q.
Definition SUMMARY_OPEN : string := "<summary class=".



(** ** Vocabulary of the further properties *)

(** [mentions c s]: the character [c] occurs in [s]. *)
Fixpoint mentions (c : ascii) (s : string) : bool :=
  match s with
  | EmptyString => false
  | String c' s' => Ascii.eqb c' c || mentions c s'
  end.

(** Reading an escaped text back: the three entities [html.escape] writes
    are replaced by their characters.  It is the inverse that shows that
    escaping loses nothing. *)
Fixpoint html_unescape (s : string) : string :=
  match s with
  | EmptyString => EmptyString
  | String c s' =>
      if Ascii.eqb c "&" then
        match s' with
        | String c1 (String c2 (String c3 r3)) =>
            if Ascii.eqb c1 "l" && Ascii.eqb c2 "t" && Ascii.eqb c3 ";" then
              String "<" (html_unescape r3)
            else if Ascii.eqb c1 "g" && Ascii.eqb c2 "t" && Ascii.eqb c3 ";" then
              String ">" (html_unescape r3)
            else
              match r3 with
              | String c4 r4 =>
                  if Ascii.eqb c1 "a" && Ascii.eqb c2 "m" && Ascii.eqb c3 "p"
                     && Ascii.eqb c4 ";" then
                    String "&" (html_unescape r4)
                  else String c (html_unescape s')
              | EmptyString => String c (html_unescape s')
              end
        | _ => String c (html_unescape s')
        end
      else String c (html_unescape s')
  end.

(** The elements the renderers write, with their opening and closing tags as
    they stand in the output. *)
Inductive element : Type :=
| EDetails | ESummary | EDiv | ESpan | EEm | EStyle.

Definition open_tag (e : element) : string :=
  match e with
  | EDetails => "<details"
  | ESummary => "<summary"
  | EDiv => "<div"
  | ESpan => "<span"
  | EEm => "<em>"
  | EStyle => "<style>"
  end.

Definition close_tag (e : element) : string :=
  match e with
  | EDetails => "</details>"
  | ESummary => "</summary>"
  | EDiv => "</div>"
  | ESpan => "</span>"
  | EEm => "</em>"
  | EStyle => "</style>"
  end.

(** [net e s n]: [s] is closed off for both tags of [e] and opens [n] more
    elements [e] than it closes. *)
Definition net (e : element) (s : string) (n : Z) : Prop :=
  sealed (open_tag e) s = true /\ sealed (close_tag e) s = true
  /\ Z.of_nat (occ (open_tag e) s) - Z.of_nat (occ (close_tag e) s) = n.

(** Every element that [s] opens is closed in [s]. *)
Definition balanced (s : string) : Prop := forall e, net e s 0.

(** The texts a fragment tree takes from the data (key labels, values and
    header labels) all satisfy [P]. *)
#[warnings="-register-all"]
Inductive data_all (P : string -> Prop) : markup -> Prop :=
| data_leaf l k i v :
    P (interactive_json_tree.key_prefix_html k i) -> P v ->
    data_all P (MLeaf l k i v)
| data_circular : data_all P MCircular
| data_more l r : data_all P (MMore l r)
| data_details o l label rows :
    P label -> Forall (data_all P) rows -> data_all P (MDetails o l label rows).

(** A child count, or a string, that a limit lets through untouched. *)
Definition count_fits (max_children : option Z) (n : nat) : Prop :=
  match max_children with
  | Some m => m < 0 \/ Z.of_nat n <= m
  | None => True
  end.

Definition string_fits (max_string_length : option Z) (v : value) : Prop :=
  match v, max_string_length with
  | VPrim (PStr s), Some m => m < 0 \/ py_len s <= m
  | _, _ => True
  end.

(** No container of the heap has more children than [max_children], and no
    string in it is longer than [max_string_length]. *)
Definition within_limits (h : heap) (max_children max_string_length : option Z)
    : Prop :=
  map_Forall (fun _ c => count_fits max_children (length (children c))
                         /\ Forall (string_fits max_string_length) (children c)) h.



(** What one call does to the visited set, and the sections it writes. *)
Definition visits (h : heap) (seen : gset addr) (m : markup) (seen' : gset addr)
    : Prop :=
  seen ⊆ seen' /\ seen' ⊆ seen ∪ dom h /\ headers m = size (seen' ∖ seen).

(** [{"a": 1, "b": [1, 2, 3]}] *)
Definition heap_readme : heap :=
  {[ 0%nat := CMap [(KStr "a", VPrim (PInt 1)); (KStr "b", VRef 1%nat)];
     1%nat := CSeq [VPrim (PInt 1); VPrim (PInt 2); VPrim (PInt 3)] ]}.

(** ** Vocabulary of the traversal *)

(** The ints the interpreter prints.  CPython (3.11 and later) refuses to
    turn an int of more than 4300 digits into text: [str], [f"{v}"] and
    [repr] raise [ValueError] on it.  The model prints every int, so the
    theorems that promise a result are stated for printable data. *)
Definition int_max_str_digits : Z := 4300.

Definition printable_int (z : Z) : Prop := Z.abs z < 10 ^ int_max_str_digits.

Definition printable_key (k : pykey) : Prop :=
  match k with KInt z => printable_int z | _ => True end.

Definition printable (v : value) : Prop :=
  match v with VPrim (PInt z) => printable_int z | _ => True end.

Global Instance printable_int_dec z : Decision (printable_int z).
Proof. unfold printable_int. apply _. Defined.

Global Instance printable_key_dec k : Decision (printable_key k).
Proof. destruct k; simpl; apply _. Defined.

Global Instance printable_dec v : Decision (printable v).
Proof. destruct v as [[]|]; simpl; apply _. Defined.

(** Every key and every int stored in the heap is printable. *)
Definition heap_printable (h : heap) : Prop :=
  map_Forall (fun _ c =>
    match c with
    | CMap items => Forall (fun kv => printable_key kv.1 /\ printable kv.2) items
    | CSeq items => Forall printable items
    end) h.

Global Instance heap_printable_dec h : Decision (heap_printable h).
Proof.
  unfold heap_printable. apply map_Forall_dec. intros a [items|items]; apply _.
Defined.

(** What a render leaves behind for one value: a leaf line, the marker of a
    revisit, or a section around the rows of the children that are shown;
    [RMore] is the row that reports the children left out. *)
#[warnings="-register-all"]
Inductive rtree : Type :=
| RLeaf
| RMarker
| RMore
| RSection (rows : list rtree).

(** The traversal as the specification words it.  [traverse h mc seen vs rs
    seen'] walks the values [vs] in order, starting with the visited set
    [seen], and leaves the rows [rs] and the visited set [seen'].
    - A primitive is a leaf.
    - A container whose identity is in the visited set is a marker; it is not
      entered, and the set stays as it is.
    - Any other container is added to the visited set and entered: its rows
      are those of the children that [islice] lets through, walked from the
      enlarged set, followed by one row for the rest when some are left out.
      The values after it are walked from the set its children left. *)
#[warnings="-register-all"]
Inductive traverse (h : heap) (mc : option Z)
    : gset addr -> list value -> list rtree -> gset addr -> Prop :=
| traverse_nil seen : traverse h mc seen [] [] seen
| traverse_prim seen p vs rs seen' :
    traverse h mc seen vs rs seen' ->
    traverse h mc seen (VPrim p :: vs) (RLeaf :: rs) seen'
| traverse_revisit seen a c vs rs seen' :
    h !! a = Some c -> a ∈ seen ->
    traverse h mc seen vs rs seen' ->
    traverse h mc seen (VRef a :: vs) (RMarker :: rs) seen'
| traverse_enter seen a c kids rows seen1 vs rs seen' :
    h !! a = Some c -> a ∉ seen ->
    items_iter (children c) mc = Some kids ->
    traverse h mc ({[a]} ∪ seen) kids rows seen1 ->
    traverse h mc seen1 vs rs seen' ->
    traverse h mc seen (VRef a :: vs)
      (RSection (rows ++ if bool_decide (length kids < length (children c))%nat
                         then [RMore] else []) :: rs) seen'.




(** The nesting depths of the sections of a traversal, in the order of the
    walk; the outermost section has depth [d]. *)
Fixpoint section_depths (d : nat) (r : rtree) : list nat :=
  match r with
  | RSection rows => d :: flat_map (section_depths (S d)) rows
  | _ => []
  end.

(** The traversal a fragment tree records. *)
Fixpoint outline (m : markup) : rtree :=
  match m with
  | MLeaf _ _ _ _ => RLeaf
  | MCircular => RMarker
  | MMore _ _ => RMore
  | MDetails _ _ _ rows => RSection (map outline rows)
  end.

(** Reading the sections off a text, the way a browser nests them: every
    [<details] tag opens a section at the current depth, which is open when
    the tag goes on with the class and the [open] attribute, and every
    [</details>] closes the innermost section. *)
Definition DETAILS_TAG : string := "<details".
Definition DETAILS_OPEN : string :=
  "<details class=" +:+ q +:+ "jt-details" +:+ q +:+ " open".
Definition DETAILS_END : string := "</details>".

Fixpoint scan_sections (depth : nat) (s : string) : list (nat * bool) :=
  match s with
  | EmptyString => []
  | String _ s' =>
      if String.prefix DETAILS_TAG s then
        (depth, String.prefix DETAILS_OPEN s) :: scan_sections (S depth) s'
      else if String.prefix DETAILS_END s then scan_sections (Nat.pred depth) s'
      else scan_sections depth s'
  end.

(** The depth at the end of a text that starts at [depth]. *)
Fixpoint depth_after (depth : nat) (s : string) : nat :=
  match s with
  | EmptyString => depth
  | String _ s' =>
      if String.prefix DETAILS_TAG s then depth_after (S depth) s'
      else if String.prefix DETAILS_END s then depth_after (Nat.pred depth) s'
      else depth_after depth s'
  end.

(** The sections of a text, each with its depth and whether it is open. *)
Definition sections_of (s : string) : list (nat * bool) := scan_sections 0 s.

(** [reads s found out]: read from depth [d], the text [s] shows the sections
    [found d] and ends at depth [out d], whatever text follows it. *)
Definition reads (s : string) (found : nat -> list (nat * bool))
    (out : nat -> nat) : Prop :=
  sealed DETAILS_TAG s = true /\ sealed DETAILS_OPEN s = true
  /\ sealed DETAILS_END s = true
  /\ forall d, scan_sections d s = found d /\ depth_after d s = out d.

(** [s] holds no [details] tag, whatever it is put next to. *)
Definition quiet (s : string) : Prop := reads s (fun _ => []) (fun d => d).

(** The check that decides [quiet] on a literal. *)
Definition quietb (s : string) : bool :=
  sealed DETAILS_TAG s && sealed DETAILS_OPEN s && sealed DETAILS_END s
  && Nat.eqb (occ DETAILS_TAG s) 0 && Nat.eqb (occ DETAILS_END s) 0.

(** The beginning of the opening tag of a section. *)
Definition DETAILS_HEAD (open : bool) : string :=
  "<details class=" +:+ q +:+ "jt-details" +:+ q +:+ (if open then " open" else "")
  +:+ " style=".

(** The rows of one loop over the children [kvs], one per child and in the
    order of [kvs]: the leaf line [leaf k p] of a primitive child [p] under
    the key [k], and for a child that is a container what the recursive call
    [rec] returns for it, made with the visited set that the rows before it
    left. *)
#[warnings="-register-all"]
Inductive child_rows
    (rec : value -> gset addr -> pykey -> option (string * gset addr))
    (leaf : pykey -> prim -> string)
    : list (pykey * value) -> gset addr -> list string -> gset addr -> Prop :=
| child_rows_nil seen : child_rows rec leaf [] seen [] seen
| child_rows_prim k p kvs seen rows seen' :
    child_rows rec leaf kvs seen rows seen' ->
    child_rows rec leaf ((k, VPrim p) :: kvs) seen (leaf k p :: rows) seen'
| child_rows_ref k a kvs seen row seen1 rows seen' :
    rec (VRef a) seen k = Some (row, seen1) ->
    child_rows rec leaf kvs seen1 rows seen' ->
    child_rows rec leaf ((k, VRef a) :: kvs) seen (row :: rows) seen'.



(** * Properties *)

(** ** Truncation switches *)

Lemma shown_unlimited {A} (xs : list A) mc : unlimited mc -> shown xs mc = xs.
Proof.
  destruct mc as [m|]; simpl; [|done].
  intros Hm. by rewrite (proj2 (Z.leb_gt 0 m)).
Qed.


Lemma items_iter_ok {A} (xs : list A) mc :
  limit_ok mc -> items_iter xs mc = Some (shown xs mc).
Proof.
  destruct mc as [m|]; simpl; [|done]. intros Hm. unfold islice.
  destruct (0 <=? m); [|done]. by rewrite (proj2 (Z.leb_le m sys_maxsize)).
Qed.

Lemma items_iter_raises {A} (xs : list A) mc :
  ~ limit_ok mc -> items_iter xs mc = None.
Proof.
  destruct mc as [m|]; simpl; [|done]. intros Hm. unfold islice.
  assert (sys_maxsize < m) as Hbig by lia.
  rewrite (proj2 (Z.leb_le 0 m)) by (unfold sys_maxsize in *; lia).
  by rewrite (proj2 (Z.leb_gt m sys_maxsize)).
Qed.

Lemma unlimited_limit_ok mc : unlimited mc -> limit_ok mc.
Proof. destruct mc as [m|]; simpl; [|done]. unfold sys_maxsize. lia. Qed.

Lemma visible_count_unlimited mc size :
  unlimited mc -> interactive_json_tree.visible_count mc size = size.
Proof.
  destruct mc as [m|]; simpl; [|done].
  intros Hm. by rewrite (proj2 (Z.leb_gt 0 m)).
Qed.


Lemma string_too_long_unlimited msl s :
  unlimited msl -> interactive_json_tree.string_too_long msl s = false.
Proof.
  destruct msl as [m|]; simpl; [|done].
  intros Hm. by rewrite (proj2 (Z.leb_gt 0 m)).
Qed.

Lemma count_display_same size :
  interactive_json_tree.count_display size size = pretty size.
Proof. unfold interactive_json_tree.count_display. by rewrite Z.eqb_refl. Qed.

Lemma more_rows_none level size :
  interactive_json_tree.more_rows level size size = [].
Proof. unfold interactive_json_tree.more_rows. by rewrite Z.ltb_irrefl. Qed.

(** ** Strings: append and slices *)

Lemma app_cons c s r : String c s +:+ r = String c (s +:+ r).
Proof. reflexivity. Qed.

Lemma app_empty_l s : "" +:+ s = s.
Proof. reflexivity. Qed.

Lemma app_empty_r s : s +:+ "" = s.
Proof. induction s as [|c s IH]; [done|]. by rewrite app_cons, IH. Qed.

Lemma app_assoc_s s1 s2 s3 : (s1 +:+ s2) +:+ s3 = s1 +:+ (s2 +:+ s3).
Proof. induction s1 as [|c s1 IH]; [done|]. by rewrite !app_cons, IH. Qed.

Lemma app_length_s s1 s2 :
  String.length (s1 +:+ s2) = (String.length s1 + String.length s2)%nat.
Proof. induction s1 as [|c s1 IH]; [done|]. rewrite app_cons. simpl. by rewrite IH. Qed.

Lemma concat_app_s rows1 rows2 :
  String.concat "" (rows1 ++ rows2) = String.concat "" rows1 +:+ String.concat "" rows2.
Proof.
  induction rows1 as [|r rows1 IH]; [done|].
  destruct rows1 as [|r' rows1].
  - simpl. destruct rows2; simpl; [by rewrite app_empty_r|done].
  - change (String.concat "" ((r :: r' :: rows1) ++ rows2))
      with (r +:+ "" +:+ String.concat "" ((r' :: rows1) ++ rows2)).
    rewrite IH.
    change (String.concat "" (r :: r' :: rows1))
      with (r +:+ "" +:+ String.concat "" (r' :: rows1)).
    by rewrite !app_empty_l, app_assoc_s.
Qed.

Lemma substring_0_length n s :
  (n <= String.length s)%nat -> String.length (String.substring 0 n s) = n.
Proof.
  revert s. induction n as [|n IH]; intros [|c s] Hn; simpl in *; try done; try lia.
  rewrite IH; lia.
Qed.

Lemma substring_0_prefix n s :
  exists rest, s = String.substring 0 n s +:+ rest.
Proof.
  revert s. induction n as [|n IH]; intros [|c s]; simpl.
  - by exists "".
  - by exists (String c s).
  - by exists "".
  - destruct (IH s) as [rest Hrest]. exists rest. rewrite app_cons. by f_equal.
Qed.

(** ** The loop *)

Lemma for_rows_ext {A R} (f g : A -> gset addr -> option (R * gset addr)) xs seen :
  (forall x s, f x s = g x s) -> for_rows f xs seen = for_rows g xs seen.
Proof.
  intros Hfg. revert seen. induction xs as [|x xs IH]; intros seen; simpl; [done|].
  rewrite Hfg. destruct (g x seen) as [[row seen1]|]; [|done]. by rewrite IH.
Qed.


(** Every row comes from its own element, in order. *)
Lemma for_rows_Forall2 {A R} (f : A -> gset addr -> option (R * gset addr))
    xs seen rows seen' :
  for_rows f xs seen = Some (rows, seen') ->
  Forall2 (fun x row => exists s1 s2, f x s1 = Some (row, s2)) xs rows.
Proof.
  revert seen rows seen'. induction xs as [|x xs IH]; intros seen rows seen'; simpl.
  - intros [= <- <-]. constructor.
  - destruct (f x seen) as [[row seen1]|] eqn:Ex; [|done].
    destruct (for_rows f xs seen1) as [[rows1 seen2]|] eqn:E; [|done].
    intros [= <- <-]. constructor; eauto.
Qed.

(** The loop commutes with a map over the rows. *)
Lemma for_rows_fmap {A R S} (g : R -> S)
    (f : A -> gset addr -> option (R * gset addr))
    (f' : A -> gset addr -> option (S * gset addr)) xs seen :
  (forall x s, f' x s = prod_map g id <$> f x s) ->
  for_rows f' xs seen = prod_map (map g) id <$> for_rows f xs seen.
Proof.
  intros Hf. revert seen. induction xs as [|x xs IH]; intros seen; simpl; [done|].
  rewrite Hf. destruct (f x seen) as [[row seen1]|]; simpl; [|done].
  rewrite IH. by destruct (for_rows f xs seen1) as [[rows seen2]|].
Qed.

(** ** The fragment tree is the string *)

Lemma serialize_more_rows level size visible :
  map serialize (markup_view.more_rows level size visible)
  = interactive_json_tree.more_rows level size visible.
Proof.
  unfold markup_view.more_rows, interactive_json_tree.more_rows.
  by destruct (visible <? size).
Qed.

Lemma to_html_serialize fuel h obj ed level seen key kii mc msl :
  interactive_json_tree._to_html fuel h obj ed level seen key kii mc msl
  = prod_map serialize id
      <$> markup_view._to_markup fuel h obj ed level seen key kii mc msl.
Proof.
  revert obj ed level seen key kii.
  induction fuel as [|fuel IH]; intros obj ed level seen key kii.
  - destruct obj as [p|a]; simpl.
    + by destruct key.
    + destruct (h !! a); [|done]. by destruct (decide (a ∈ seen)).
  - destruct obj as [p|a]; simpl.
    + by destruct key.
    + destruct (h !! a) as [c|]; [|done].
      destruct (decide (a ∈ seen)); [done|].
      assert (Hrow : forall is_index kv s,
        interactive_json_tree.child_row h
          (fun v seen k is_index =>
             interactive_json_tree._to_html fuel h v (next_depth ed) (level + 1)
               seen k is_index mc msl) msl level is_index kv s
        = prod_map serialize id <$>
          markup_view.child_row h
            (fun v seen k is_index =>
               markup_view._to_markup fuel h v (next_depth ed) (level + 1)
                 seen k is_index mc msl) msl level is_index kv s).
      { intros is_index [k v] s.
        unfold interactive_json_tree.child_row, markup_view.child_row.
        destruct (classify h v) as [[items|items|p]|]; simpl; auto. }
      destruct c as [items|items].
      * destruct (items_iter items mc) as [its|]; [|done].
        rewrite (for_rows_fmap serialize _ _ _ _ (Hrow false)).
        destruct (for_rows _ _ _) as [[rows seen']|]; simpl; [|done].
        unfold interactive_json_tree.details.
        by rewrite map_app, serialize_more_rows.
      * destruct (items_iter (enumerate items) mc) as [its|]; [|done].
        rewrite (for_rows_fmap serialize _ _ _ _ (Hrow true)).
        destruct (for_rows _ _ _) as [[rows seen']|]; simpl; [|done].
        unfold interactive_json_tree.details.
        by rewrite map_app, serialize_more_rows.
Qed.

(** ** Primitive formatting *)

(** C3. For a string [s] and a bounded limit [m >= 0]: when [len(s) > m] the
    value is the first [m] characters of [s] (escaped) followed by ["..."],
    inside the [jt-str jt-str-trunc] span; when [len(s) <= m], in particular
    when [len(s) = m], it is all of [s] inside the plain [jt-str] span; both
    are wrapped in double quotes. *)
Theorem fmt_primitive_string_truncation (s : string) (m : Z) :
  0 <= m ->
  (m < py_len s ->
     interactive_json_tree.fmt_primitive (Some m) (PStr s)
     = "<span class=" +:+ q +:+ "jt-str jt-str-trunc" +:+ q +:+ ">"
       +:+ q +:+ html_escape (py_slice_to m s) +:+ "..." +:+ q +:+ "</span>"
     /\ py_len (py_slice_to m s) = m
     /\ exists rest, s = py_slice_to m s +:+ rest)
  /\ (py_len s <= m ->
     interactive_json_tree.fmt_primitive (Some m) (PStr s)
     = "<span class=" +:+ q +:+ "jt-str" +:+ q +:+ ">"
       +:+ q +:+ html_escape s +:+ q +:+ "</span>")
  /\ (py_len s = m ->
     interactive_json_tree.fmt_primitive (Some m) (PStr s)
     = "<span class=" +:+ q +:+ "jt-str" +:+ q +:+ ">"
       +:+ q +:+ html_escape s +:+ q +:+ "</span>").
Proof.
  intros Hm.
  assert (Hfull : py_len s <= m ->
     interactive_json_tree.fmt_primitive (Some m) (PStr s)
     = "<span class=" +:+ q +:+ "jt-str" +:+ q +:+ ">"
       +:+ q +:+ html_escape s +:+ q +:+ "</span>").
  { intros Hle. unfold interactive_json_tree.fmt_primitive,
      interactive_json_tree.string_too_long. simpl.
    by rewrite (proj2 (Z.ltb_ge m (py_len s)) Hle), andb_false_r. }
  split; [|split; [done|intros <-; apply Hfull; lia]].
  intros Hlt. split; [|split].
  - unfold interactive_json_tree.fmt_primitive,
      interactive_json_tree.string_too_long. simpl.
    by rewrite (proj2 (Z.leb_le 0 m) Hm), (proj2 (Z.ltb_lt m (py_len s)) Hlt).
  - unfold py_len, py_slice_to in *. rewrite substring_0_length; lia.
  - apply substring_0_prefix.
Qed.

Lemma fmt_primitive_string_truncation_witness :
  interactive_json_tree.fmt_primitive (Some 3) (PStr "a<bcd")
  = "<span class=" +:+ q +:+ "jt-str jt-str-trunc" +:+ q +:+ ">"
    +:+ q +:+ "a&lt;b..." +:+ q +:+ "</span>"
  /\ interactive_json_tree.fmt_primitive (Some 5) (PStr "a<bcd")
  = "<span class=" +:+ q +:+ "jt-str" +:+ q +:+ ">"
    +:+ q +:+ "a&lt;bcd" +:+ q +:+ "</span>".
Proof.
  destruct (fmt_primitive_string_truncation "a<bcd" 3 ltac:(lia)) as [Hcut _].
  destruct (fmt_primitive_string_truncation "a<bcd" 5 ltac:(lia)) as (_ & _ & Hat).
  split.
  - exact (proj1 (Hcut ltac:(vm_compute; reflexivity))).
  - exact (Hat ltac:(vm_compute; reflexivity)).
Defined.

(** C9. [fmt_primitive] tries string, [None], [bool], number, and then falls
    back, in that order.  A [str] is rendered as a string whatever it spells
    (quoted and escaped in the [jt-str] span, cut and marked [jt-str-trunc]
    when it is longer than a limit in force); [None] is [null] in the
    [jt-null] span; a [bool] satisfies the numeric test too, yet is rendered
    as [true]/[false] in the [jt-bool] span and never as the numeric branch
    would render it; an int (one the interpreter prints) or a float is its
    decimal text in the [jt-num] span; a value that passes no test is
    rendered as its escaped [repr] in a bare span. *)
Theorem fmt_primitive_dispatch (msl : option Z) :
  (forall s,
     (forall m, msl = Some m -> m < 0 \/ py_len s <= m) ->
     interactive_json_tree.fmt_primitive msl (PStr s)
     = "<span class=" +:+ q +:+ "jt-str" +:+ q +:+ ">" +:+ q
       +:+ html_escape s +:+ q +:+ "</span>")
  /\ (forall s m,
        msl = Some m -> 0 <= m < py_len s ->
        interactive_json_tree.fmt_primitive msl (PStr s)
        = "<span class=" +:+ q +:+ "jt-str jt-str-trunc" +:+ q +:+ ">" +:+ q
          +:+ html_escape (py_slice_to m s) +:+ "..." +:+ q +:+ "</span>")
  /\ interactive_json_tree.fmt_primitive msl PNone
     = "<span class=" +:+ q +:+ "jt-null" +:+ q +:+ ">null</span>"
  /\ (forall b : bool,
        isinstance_int_float (PBool b) = true
        /\ interactive_json_tree.fmt_primitive msl (PBool b)
           = "<span class=" +:+ q +:+ "jt-bool" +:+ q +:+ ">"
             +:+ (if b then "true" else "false") +:+ "</span>"
        /\ interactive_json_tree.fmt_primitive msl (PBool b)
           <> "<span class=" +:+ q +:+ "jt-num" +:+ q +:+ ">"
              +:+ (if b then "True" else "False") +:+ "</span>")
  /\ (forall z,
        printable_int z ->
        interactive_json_tree.fmt_primitive msl (PInt z)
        = "<span class=" +:+ q +:+ "jt-num" +:+ q +:+ ">" +:+ pretty z +:+ "</span>")
  /\ (forall t,
        interactive_json_tree.fmt_primitive msl (PFloat t)
        = "<span class=" +:+ q +:+ "jt-num" +:+ q +:+ ">" +:+ float_str t
          +:+ "</span>")
  /\ (forall r,
        interactive_json_tree.fmt_primitive msl (POther r)
        = "<span>" +:+ html_escape r +:+ "</span>").
Proof.
  split; [|split; [|split; [done|split; [|by repeat split]]]].
  - intros s Hfit.
    unfold interactive_json_tree.fmt_primitive. simpl.
    replace (interactive_json_tree.string_too_long msl s) with false; [done|].
    destruct msl as [m|]; simpl; [|done].
    destruct (0 <=? m) eqn:Hm; [|done]. apply Z.leb_le in Hm.
    destruct (Hfit m eq_refl) as [Hneg|Hle]; [lia|].
    symmetry. apply Z.ltb_ge. lia.
  - intros s m -> [Hm Hlong].
    unfold interactive_json_tree.fmt_primitive,
      interactive_json_tree.string_too_long. simpl.
    by rewrite (proj2 (Z.leb_le 0 m) Hm), (proj2 (Z.ltb_lt m (py_len s)) Hlong).
  - intros b. split; [done|]. split; [done|].
    by destruct b; vm_compute.
Qed.

Lemma fmt_primitive_dispatch_witness :
  interactive_json_tree.fmt_primitive (Some 3) (PStr "abcd")
  = "<span class=" +:+ q +:+ "jt-str jt-str-trunc" +:+ q +:+ ">" +:+ q
    +:+ "abc..." +:+ q +:+ "</span>"
  /\ interactive_json_tree.fmt_primitive (Some 3) (PInt 42)
     = "<span class=" +:+ q +:+ "jt-num" +:+ q +:+ ">42</span>".
Proof.
  destruct (fmt_primitive_dispatch (Some 3)) as (_ & Hcut & _ & _ & Hint & _).
  split.
  - apply (Hcut "abcd" 3 eq_refl). vm_compute. split; [discriminate|reflexivity].
  - apply (Hint 42). vm_compute. reflexivity.
Defined.

(** A text that spells [None], [True] or a number is still a string, and
    [True] is not the number 1. *)
Example fmt_primitive_order :
  interactive_json_tree.fmt_primitive (Some 2000) (PStr "None")
  = "<span class=" +:+ q +:+ "jt-str" +:+ q +:+ ">" +:+ q +:+ "None" +:+ q
    +:+ "</span>"
  /\ interactive_json_tree.fmt_primitive (Some 2000) (PStr "12")
     = "<span class=" +:+ q +:+ "jt-str" +:+ q +:+ ">" +:+ q +:+ "12" +:+ q
       +:+ "</span>"
  /\ interactive_json_tree.fmt_primitive (Some 2000) (PBool true)
     = "<span class=" +:+ q +:+ "jt-bool" +:+ q +:+ ">true</span>"
  /\ interactive_json_tree.fmt_primitive (Some 2000) (PInt 1)
     = "<span class=" +:+ q +:+ "jt-num" +:+ q +:+ ">1</span>"
  /\ interactive_json_tree.fmt_primitive (Some 2000) (POther "b'<x>'")
     = "<span>b'&lt;x&gt;'</span>".
Proof. repeat split; vm_compute; reflexivity. Qed.

(** ** Revisits *)

Lemma to_html_revisit fuel h a c ed level seen key kii mc msl :
  h !! a = Some c -> a ∈ seen ->
  interactive_json_tree._to_html fuel h (VRef a) ed level seen key kii mc msl
  = Some (CIRCULAR, seen).
Proof.
  intros Ha Hin. destruct fuel; simpl; rewrite Ha; by rewrite decide_True.
Qed.

Lemma to_html_minimal_revisit fuel h a c ed level seen key kii :
  h !! a = Some c -> a ∈ seen ->
  json_tree._to_html fuel h (VRef a) ed level seen key kii = Some (CIRCULAR, seen).
Proof.
  intros Ha Hin. destruct fuel; simpl; rewrite Ha; by rewrite decide_True.
Qed.

Lemma contains_here needle post : contains needle (needle +:+ post).
Proof. by exists "", post. Qed.

Lemma contains_skip p needle s : contains needle s -> contains needle (p +:+ s).
Proof.
  intros (pre & post & ->). exists (p +:+ pre), post. by rewrite app_assoc_s.
Qed.

Lemma contains_inside needle s post :
  contains needle s -> contains needle (s +:+ post).
Proof.
  intros (pre & post' & ->). exists pre, (post' +:+ post).
  by rewrite !app_assoc_s.
Qed.

Ltac find_needle :=
  repeat lazymatch goal with
    | |- contains ?n (?n +:+ _) => apply contains_here
    | |- contains _ ((_ +:+ _) +:+ _) => apply contains_inside
    | |- contains _ (_ +:+ _) => apply contains_skip
    end.

(** Unfolding [_to_html] at a container that has not been seen yet. *)
Lemma to_html_fresh fuel h a c ed level seen key kii mc msl :
  h !! a = Some c -> a ∉ seen -> limit_ok mc ->
  interactive_json_tree._to_html (S fuel) h (VRef a) ed level seen key kii mc msl
  = let rec v seen k is_index :=
      interactive_json_tree._to_html fuel h v (next_depth ed) (level + 1) seen
        k is_index mc msl in
    match c with
    | CMap items =>
        let size := Z.of_nat (length items) in
        let visible := interactive_json_tree.visible_count mc size in
        match for_rows (interactive_json_tree.child_row h rec msl level false)
                (shown items mc) ({[a]} ∪ seen) with
        | None => None
        | Some (rows, seen') =>
            Some (interactive_json_tree.details ed level
                    (interactive_json_tree.summary_label key kii "{} Object "
                       visible size)
                    (rows ++ interactive_json_tree.more_rows level size visible),
                  seen')
        end
    | CSeq items =>
        let size := Z.of_nat (length items) in
        let visible := interactive_json_tree.visible_count mc size in
        match for_rows (interactive_json_tree.child_row h rec msl level true)
                (shown (enumerate items) mc) ({[a]} ∪ seen) with
        | None => None
        | Some (rows, seen') =>
            Some (interactive_json_tree.details ed level
                    (interactive_json_tree.summary_label key kii "[] Array "
                       visible size)
                    (rows ++ interactive_json_tree.more_rows level size visible),
                  seen')
        end
    end.
Proof.
  intros Ha Hfresh Hmc. simpl. rewrite Ha. rewrite decide_False by done.
  destruct c as [items|items]; by rewrite items_iter_ok.
Qed.

(** A [max_children] beyond [sys.maxsize] makes [islice] raise as soon as a
    container is entered. *)
Lemma to_html_limit_raises fuel h a c ed level seen key kii mc msl :
  h !! a = Some c -> a ∉ seen -> ~ limit_ok mc ->
  interactive_json_tree._to_html fuel h (VRef a) ed level seen key kii mc msl = None.
Proof.
  intros Ha Hfresh Hmc. destruct fuel; simpl; rewrite Ha;
    rewrite decide_False by done; [done|].
  destruct c as [items|items]; by rewrite items_iter_raises.
Qed.

Lemma to_html_prim fuel h p ed level seen key kii mc msl :
  interactive_json_tree._to_html fuel h (VPrim p) ed level seen key kii mc msl
  = Some (interactive_json_tree.leaf_row msl level key kii p, seen).
Proof. by destruct fuel, key. Qed.

Lemma to_html_out_of_fuel h a c ed level seen key kii mc msl :
  h !! a = Some c -> a ∉ seen ->
  interactive_json_tree._to_html 0 h (VRef a) ed level seen key kii mc msl = None.
Proof. intros Ha Hfresh. simpl. rewrite Ha. by rewrite decide_False. Qed.

(** A fresh node writes its key label into its own header or leaf line. *)
Lemma to_html_fresh_has_label fuel h obj ed level seen key kii mc msl html seen' :
  interactive_json_tree._to_html fuel h obj ed level seen key kii mc msl
  = Some (html, seen') ->
  (forall a, obj = VRef a -> a ∉ seen) ->
  contains (interactive_json_tree.key_prefix_html key kii) html.
Proof.
  intros Hrun Hfresh. destruct obj as [p|a].
  - rewrite to_html_prim in Hrun. injection Hrun as <- _.
    unfold interactive_json_tree.leaf_row. find_needle.
  - specialize (Hfresh a eq_refl).
    destruct (h !! a) as [c|] eqn:Ha.
    2:{ destruct fuel; simpl in Hrun; by rewrite Ha in Hrun. }
    destruct fuel as [|fuel].
    { by rewrite (to_html_out_of_fuel _ _ _ _ _ _ _ _ _ _ Ha Hfresh) in Hrun. }
    destruct (decide (limit_ok mc)) as [Hmc|Hmc].
    2:{ by rewrite (to_html_limit_raises _ _ _ _ _ _ _ _ _ _ _ Ha Hfresh Hmc) in Hrun. }
    rewrite (to_html_fresh _ _ _ _ _ _ _ _ _ _ _ Ha Hfresh Hmc) in Hrun.
    destruct c as [items|items]; simpl in Hrun;
      destruct (for_rows _ _ _) as [[rows seen1]|]; try done;
      injection Hrun as <- _;
      unfold interactive_json_tree.details, interactive_json_tree.summary_label;
      find_needle.
Qed.

(** ** Counting occurrences *)

Lemma prefix_app pat post : String.prefix pat (pat +:+ post) = true.
Proof.
  induction pat as [|c pat IH]; [by destruct post|].
  rewrite app_cons. simpl. by destruct (ascii_dec c c).
Qed.

Lemma contains_occ_pos needle s :
  needle <> "" -> contains needle s -> (0 < occ needle s)%nat.
Proof.
  intros Hne (pre & post & ->).
  induction pre as [|c pre IH].
  - rewrite app_empty_l. destruct needle as [|c needle]; [done|].
    rewrite app_cons.
    change (0 < (if String.prefix (String c needle) (String c needle +:+ post)
                 then 1 else 0) + occ (String c needle) (needle +:+ post))%nat.
    rewrite prefix_app. lia.
  - rewrite app_cons. simpl. lia.
Qed.

Lemma contains_trans a b c : contains a b -> contains b c -> contains a c.
Proof.
  intros (pre1 & post1 & ->) (pre2 & post2 & ->).
  exists (pre2 +:+ pre1), (post1 +:+ post2). by rewrite !app_assoc_s.
Qed.

Lemma key_prefix_has_class key kii :
  key <> KNone -> contains "jt-key" (interactive_json_tree.key_prefix_html key kii).
Proof.
  intros Hkey. destruct key, kii; try done; simpl; find_needle.
Qed.

(** C10. On a revisit both renderers return exactly
    [<div class="jt-leaf"><em>[Circular]</em></div>] and leave [seen] as it
    was, whatever key or index, level and depth the parent passed down; the
    fragment holds no key label, whereas every other node, handed a key,
    writes the label into its own line. *)
Theorem circular_leaf_drops_key fuel (h : heap) a c ed level (seen : gset addr)
    key kii mc msl :
  h !! a = Some c -> a ∈ seen ->
  interactive_json_tree._to_html fuel h (VRef a) ed level seen key kii mc msl
  = Some ("<div class=" +:+ q +:+ "jt-leaf" +:+ q +:+ "><em>[Circular]</em></div>",
          seen)
  /\ json_tree._to_html fuel h (VRef a) ed level seen key kii
     = Some ("<div class=" +:+ q +:+ "jt-leaf" +:+ q +:+ "><em>[Circular]</em></div>",
             seen)
  /\ occ "jt-key" CIRCULAR = 0%nat
  /\ (forall obj html seen',
        (forall b, obj = VRef b -> b ∉ seen) ->
        interactive_json_tree._to_html fuel h obj ed level seen key kii mc msl
        = Some (html, seen') ->
        contains (interactive_json_tree.key_prefix_html key kii) html
        /\ (key <> KNone -> (0 < occ "jt-key" html)%nat)).
Proof.
  intros Ha Hin. split; [|split; [|split]].
  - by apply to_html_revisit with c.
  - by apply to_html_minimal_revisit with c.
  - by vm_compute.
  - intros obj html seen' Hfresh Hrun.
    pose proof (to_html_fresh_has_label _ _ _ _ _ _ _ _ _ _ _ _ Hrun Hfresh) as Hlab.
    split; [done|]. intros Hkey. apply contains_occ_pos; [done|].
    eapply contains_trans; [|exact Hlab]. by apply key_prefix_has_class.
Qed.

Lemma circular_leaf_drops_key_witness :
  interactive_json_tree._to_html 0 heap_self_list (VRef 0%nat) 1 1 {[0%nat]}
    (KInt 0) true (Some 100) (Some 2000)
  = Some (CIRCULAR, {[0%nat]}).
Proof.
  refine (proj1 (circular_leaf_drops_key 0 heap_self_list 0%nat
                   (CSeq [VRef 0%nat; VPrim (PStr "x")]) 1 1 {[0%nat]}
                   (KInt 0) true (Some 100) (Some 2000) _ _)).
  - reflexivity.
  - apply elem_of_singleton. reflexivity.
Defined.

(** ** The two renderers agree when truncation is off *)

Lemma fmt_primitive_unlimited msl v :
  unlimited msl ->
  interactive_json_tree.fmt_primitive msl v = json_tree.fmt_primitive v.
Proof.
  intros Hmsl. unfold interactive_json_tree.fmt_primitive, json_tree.fmt_primitive.
  by rewrite string_too_long_unlimited.
Qed.

Lemma to_html_unlimited_eq fuel (h : heap) obj ed level (seen : gset addr)
    key kii mc msl :
  unlimited mc -> unlimited msl ->
  interactive_json_tree._to_html fuel h obj ed level seen key kii mc msl
  = json_tree._to_html fuel h obj ed level seen key kii.
Proof.
  intros Hmc Hmsl. revert obj ed level seen key kii.
  induction fuel as [|fuel IH]; intros obj ed level seen key kii.
  - destruct obj as [p|a]; simpl; [|done].
    by rewrite fmt_primitive_unlimited.
  - destruct obj as [p|a]; simpl.
    { by rewrite fmt_primitive_unlimited. }
    destruct (h !! a) as [c|]; [|done].
    destruct (decide (a ∈ seen)); [done|].
    assert (Hrow : forall is_index kv s,
      interactive_json_tree.child_row h
        (fun v seen k is_index =>
           interactive_json_tree._to_html fuel h v (next_depth ed) (level + 1)
             seen k is_index mc msl) msl level is_index kv s
      = json_tree.child_row h
          (fun v seen k is_index =>
             json_tree._to_html fuel h v (next_depth ed) (level + 1)
               seen k is_index) level is_index kv s).
    { intros is_index [k v] s.
      unfold interactive_json_tree.child_row, json_tree.child_row.
      destruct (classify h v) as [[items|items|p]|]; auto.
      by rewrite fmt_primitive_unlimited. }
    destruct c as [items|items];
      rewrite items_iter_ok by (by apply unlimited_limit_ok);
      rewrite !shown_unlimited, !visible_count_unlimited by done;
      [rewrite (for_rows_ext _ _ _ _ (Hrow false))
      |rewrite (for_rows_ext _ _ _ _ (Hrow true))];
      destruct (for_rows _ _ _) as [[rows seen']|]; try done;
      rewrite more_rows_none, app_nil_r;
      unfold interactive_json_tree.summary_label, json_tree.summary_label;
      by rewrite count_display_same.
Qed.

(** C7. With [max_children] and [max_string_length] each [None] or negative,
    [_to_html] of the extended renderer returns what [_to_html] of the minimal
    renderer returns: the same string and the same [seen] set, for every
    value, depth, level, key and fuel. *)
Theorem to_html_unlimited_is_minimal fuel (h : heap) obj ed level (seen : gset addr)
    key kii mc msl :
  unlimited mc -> unlimited msl ->
  interactive_json_tree._to_html fuel h obj ed level seen key kii mc msl
  = json_tree._to_html fuel h obj ed level seen key kii.
Proof. apply to_html_unlimited_eq. Qed.

Lemma to_html_unlimited_is_minimal_witness :
  interactive_json_tree._to_html 1 heap_self_list (VRef 0%nat) 1 0 ∅ KNone false
    (Some (-1)) None
  = json_tree._to_html 1 heap_self_list (VRef 0%nat) 1 0 ∅ KNone false.
Proof.
  apply to_html_unlimited_is_minimal.
  - simpl. lia.
  - exact I.
Defined.

(** ** Negative limits, [None], and the defaults *)




(** ** Termination *)









Lemma heap_mutual_closed : heap_closed heap_mutual.
Proof. unfold heap_closed. apply (bool_decide_unpack _). vm_compute. exact I. Defined.

(** [a = []; a.append(a); a.append("x")]: the inner [a] is the marker. *)
Example self_list_renders :
  fst <$> interactive_json_tree._to_html 1 heap_self_list (VRef 0%nat) 1 0 ∅
            KNone false (Some 100) (Some 2000)
  = Some ("<details class=" +:+ q +:+ "jt-details" +:+ q +:+ " open style=" +:+ q
          +:+ "margin-left:0.0rem" +:+ q +:+ "><summary class=" +:+ q
          +:+ "jt-summary" +:+ q +:+ ">[] Array <span class=" +:+ q +:+ "jt-punct"
          +:+ q +:+ ">(2)</span></summary>"
          +:+ CIRCULAR
          +:+ "<div class=" +:+ q +:+ "jt-leaf" +:+ q +:+ " style=" +:+ q
          +:+ "margin-left:0.5rem" +:+ q +:+ "><span class=" +:+ q +:+ "jt-key" +:+ q
          +:+ ">[1]</span><span class=" +:+ q +:+ "jt-punct" +:+ q
          +:+ ">: </span><span class=" +:+ q +:+ "jt-str" +:+ q +:+ ">" +:+ q +:+ "x"
          +:+ q +:+ "</span></div></details>").
Proof. vm_compute. reflexivity. Qed.

(** [a = {}; b = {"a": a}; a["b"] = b]: rendering [a] shows [b], and inside
    [b] the marker where [a] comes round again. *)
Example mutual_dicts_render :
  fst <$> interactive_json_tree._to_html 2 heap_mutual (VRef 0%nat) 1 0 ∅
            KNone false (Some 100) (Some 2000)
  = Some ("<details class=" +:+ q +:+ "jt-details" +:+ q +:+ " open style=" +:+ q
          +:+ "margin-left:0.0rem" +:+ q +:+ "><summary class=" +:+ q
          +:+ "jt-summary" +:+ q +:+ ">{} Object <span class=" +:+ q +:+ "jt-punct"
          +:+ q +:+ ">(1)</span></summary>"
          +:+ "<details class=" +:+ q +:+ "jt-details" +:+ q +:+ " style=" +:+ q
          +:+ "margin-left:0.5rem" +:+ q +:+ "><summary class=" +:+ q
          +:+ "jt-summary" +:+ q +:+ "><span class=" +:+ q +:+ "jt-key" +:+ q +:+ ">"
          +:+ q +:+ "b" +:+ q +:+ "</span><span class=" +:+ q +:+ "jt-punct" +:+ q
          +:+ ">: </span>{} Object <span class=" +:+ q +:+ "jt-punct"
          +:+ q +:+ ">(1)</span></summary>"
          +:+ CIRCULAR
          +:+ "</details></details>").
Proof. vm_compute. reflexivity. Qed.

(** ** Child truncation *)

Lemma enumerate_length {A} (xs : list A) : length (enumerate xs) = length xs.
Proof. unfold enumerate. apply length_imap. Qed.


(** Unfolding at a fresh container, with both kinds of container at once. *)
Lemma to_html_fresh_kv fuel (h : heap) a c ed level (seen : gset addr)
    key kii mc msl :
  h !! a = Some c -> a ∉ seen -> limit_ok mc ->
  interactive_json_tree._to_html (S fuel) h (VRef a) ed level seen key kii mc msl
  = let size := Z.of_nat (length (kv_items c)) in
    let visible := interactive_json_tree.visible_count mc size in
    match for_rows
            (interactive_json_tree.child_row h
               (fun v seen k is_index =>
                  interactive_json_tree._to_html fuel h v (next_depth ed)
                    (level + 1) seen k is_index mc msl)
               msl level (is_seq c))
            (shown (kv_items c) mc) ({[a]} ∪ seen) with
    | None => None
    | Some (rows, seen') =>
        Some (interactive_json_tree.details ed level
                (interactive_json_tree.summary_label key kii (type_tag c)
                   visible size)
                (rows ++ interactive_json_tree.more_rows level size visible),
              seen')
    end.
Proof.
  intros Ha Hfresh Hmc. rewrite (to_html_fresh _ _ _ _ _ _ _ _ _ _ _ Ha Hfresh Hmc).
  destruct c as [items|items]; simpl; [done|].
  by rewrite enumerate_length.
Qed.


(** The loop over the children is the relation [child_rows]: a leaf line for
    a primitive child, the result of the recursive call for a container. *)
Lemma for_rows_child_rows (h : heap)
    (rec : value -> gset addr -> pykey -> bool -> option (string * gset addr))
    msl level is_index kvs (seen : gset addr) rows seen' :
  for_rows (interactive_json_tree.child_row h rec msl level is_index) kvs seen
  = Some (rows, seen') ->
  child_rows (fun v s k => rec v s k is_index)
    (fun k p =>
       "<div class=" +:+ q +:+ "jt-leaf" +:+ q +:+ " style=" +:+ q
       +:+ "margin-left:" +:+ indent_rem (level + 1) +:+ "rem" +:+ q +:+ ">"
       +:+ interactive_json_tree.key_prefix_html k is_index
       +:+ interactive_json_tree.fmt_primitive msl p +:+ "</div>")
    kvs seen rows seen'.
Proof.
  revert seen rows seen'.
  induction kvs as [|[k v] kvs IH]; intros seen rows seen'.
  - simpl. intros [= <- <-]. constructor.
  - cbn [for_rows].
    destruct (interactive_json_tree.child_row h rec msl level is_index (k, v) seen)
      as [[row s1]|] eqn:Hrow; [|done].
    destruct (for_rows _ kvs s1) as [[rows1 s2]|] eqn:Hrows; [|done].
    intros [= <- <-]. apply IH in Hrows.
    unfold interactive_json_tree.child_row in Hrow.
    destruct v as [p|b]; simpl in Hrow.
    + injection Hrow as <- <-. by constructor.
    + destruct (h !! b) as [[items|items]|]; [| |done];
        by apply child_rows_ref with s1.
Qed.






(** The same list under [max_children] 2, 1, 3 and 0: one item left out
    (singular), two left out (plural), none left out, all left out. *)
Example three_items_limits :
  fst <$> interactive_json_tree._to_html 1 heap_three (VRef 0%nat) 0 0 ∅ KNone false
            (Some 1) None
  = Some ("<details class=" +:+ q +:+ "jt-details" +:+ q +:+ " style=" +:+ q
          +:+ "margin-left:0.0rem" +:+ q +:+ "><summary class=" +:+ q
          +:+ "jt-summary" +:+ q +:+ ">[] Array <span class=" +:+ q
          +:+ "jt-punct" +:+ q +:+ ">(1/3)</span></summary>"
          +:+ "<div class=" +:+ q +:+ "jt-leaf" +:+ q +:+ " style=" +:+ q
          +:+ "margin-left:0.5rem" +:+ q +:+ "><span class=" +:+ q +:+ "jt-key" +:+ q
          +:+ ">[0]</span><span class=" +:+ q +:+ "jt-punct" +:+ q
          +:+ ">: </span><span class=" +:+ q +:+ "jt-num" +:+ q +:+ ">1</span></div>"
          +:+ "<div class=" +:+ q +:+ "jt-more" +:+ q +:+ " style=" +:+ q
          +:+ "margin-left:0.5rem" +:+ q
          +:+ "><em>... 2 more items</em></div></details>")
  /\ fst <$> interactive_json_tree._to_html 1 heap_three (VRef 0%nat) 0 0 ∅ KNone
               false (Some 0) None
     = Some ("<details class=" +:+ q +:+ "jt-details" +:+ q +:+ " style=" +:+ q
             +:+ "margin-left:0.0rem" +:+ q +:+ "><summary class=" +:+ q
             +:+ "jt-summary" +:+ q +:+ ">[] Array <span class=" +:+ q
             +:+ "jt-punct" +:+ q +:+ ">(0/3)</span></summary>"
             +:+ "<div class=" +:+ q +:+ "jt-more" +:+ q +:+ " style=" +:+ q
             +:+ "margin-left:0.5rem" +:+ q
             +:+ "><em>... 3 more items</em></div></details>")
  /\ fst <$> interactive_json_tree._to_html 1 heap_three (VRef 0%nat) 0 0 ∅ KNone
               false (Some 3) None
     = fst <$> interactive_json_tree._to_html 1 heap_three (VRef 0%nat) 0 0 ∅ KNone
                 false None None.
Proof. repeat split; vm_compute; reflexivity. Qed.

(** ** Expansion depth *)

Lemma for_rows_Forall {A R} (Q : R -> Prop)
    (f : A -> gset addr -> option (R * gset addr)) xs seen rows seen' :
  (forall x s r s', f x s = Some (r, s') -> Q r) ->
  for_rows f xs seen = Some (rows, seen') -> Forall Q rows.
Proof.
  intros HQ Hrun. apply for_rows_Forall2 in Hrun.
  induction Hrun as [|x r xs rows (s & s' & Hx) _ IH]; constructor; eauto.
Qed.

Lemma to_markup_prim fuel h p ed level seen key kii mc msl :
  markup_view._to_markup fuel h (VPrim p) ed level seen key kii mc msl
  = Some (MLeaf level key kii (interactive_json_tree.fmt_primitive msl p), seen).
Proof. by destruct fuel. Qed.

Lemma to_markup_revisit fuel h a c ed level seen key kii mc msl :
  h !! a = Some c -> a ∈ seen ->
  markup_view._to_markup fuel h (VRef a) ed level seen key kii mc msl
  = Some (MCircular, seen).
Proof.
  intros Ha Hin. destruct fuel; simpl; rewrite Ha; by rewrite decide_True.
Qed.

Lemma to_markup_fresh_kv fuel (h : heap) a c ed level (seen : gset addr)
    key kii mc msl :
  h !! a = Some c -> a ∉ seen -> limit_ok mc ->
  markup_view._to_markup (S fuel) h (VRef a) ed level seen key kii mc msl
  = let size := Z.of_nat (length (kv_items c)) in
    let visible := interactive_json_tree.visible_count mc size in
    match for_rows
            (markup_view.child_row h
               (fun v seen k is_index =>
                  markup_view._to_markup fuel h v (next_depth ed)
                    (level + 1) seen k is_index mc msl)
               msl level (is_seq c))
            (shown (kv_items c) mc) ({[a]} ∪ seen) with
    | None => None
    | Some (rows, seen') =>
        Some (MDetails (0 <? ed) level
                (interactive_json_tree.summary_label key kii (type_tag c)
                   visible size)
                (rows ++ markup_view.more_rows level size visible),
              seen')
    end.
Proof.
  intros Ha Hfresh Hmc. simpl. rewrite Ha. rewrite decide_False by done.
  destruct c as [items|items]; rewrite items_iter_ok by done; simpl; [done|].
  by rewrite enumerate_length.
Qed.

Lemma to_markup_limit_raises fuel h a c ed level seen key kii mc msl :
  h !! a = Some c -> a ∉ seen -> ~ limit_ok mc ->
  markup_view._to_markup fuel h (VRef a) ed level seen key kii mc msl = None.
Proof.
  intros Ha Hfresh Hmc. destruct fuel; simpl; rewrite Ha;
    rewrite decide_False by done; [done|].
  destruct c as [items|items]; by rewrite items_iter_raises.
Qed.

(** Case analysis of one call of [_to_markup] that returns. *)
Lemma to_markup_cases fuel (h : heap) obj ed level (seen : gset addr)
    key kii mc msl m seen' :
  markup_view._to_markup fuel h obj ed level seen key kii mc msl = Some (m, seen') ->
  (exists p, obj = VPrim p /\ seen' = seen
     /\ m = MLeaf level key kii (interactive_json_tree.fmt_primitive msl p))
  \/ (exists a c, obj = VRef a /\ h !! a = Some c /\ a ∈ seen
        /\ m = MCircular /\ seen' = seen)
  \/ (exists a c fuel' rows,
        obj = VRef a /\ h !! a = Some c /\ (a ∉ seen) /\ fuel = S fuel'
        /\ for_rows
             (markup_view.child_row h
                (fun v seen k is_index =>
                   markup_view._to_markup fuel' h v (next_depth ed)
                     (level + 1) seen k is_index mc msl)
                msl level (is_seq c))
             (shown (kv_items c) mc) ({[a]} ∪ seen) = Some (rows, seen')
        /\ m = MDetails (0 <? ed) level
                 (interactive_json_tree.summary_label key kii (type_tag c)
                    (interactive_json_tree.visible_count mc
                       (Z.of_nat (length (kv_items c))))
                    (Z.of_nat (length (kv_items c))))
                 (rows ++ markup_view.more_rows level
                            (Z.of_nat (length (kv_items c)))
                            (interactive_json_tree.visible_count mc
                               (Z.of_nat (length (kv_items c)))))).
Proof.
  intros Hrun. destruct obj as [p|a].
  - rewrite to_markup_prim in Hrun. injection Hrun as <- <-. left. eauto.
  - destruct (h !! a) as [c|] eqn:Ha.
    2:{ destruct fuel; simpl in Hrun; by rewrite Ha in Hrun. }
    destruct (decide (a ∈ seen)) as [Hin|Hfresh].
    + rewrite (to_markup_revisit _ _ _ _ _ _ _ _ _ _ _ Ha Hin) in Hrun.
      injection Hrun as <- <-. right. left. by exists a, c.
    + destruct fuel as [|fuel].
      { simpl in Hrun. rewrite Ha in Hrun. by rewrite decide_False in Hrun. }
      destruct (decide (limit_ok mc)) as [Hmc|Hmc].
      2:{ by rewrite (to_markup_limit_raises _ _ _ _ _ _ _ _ _ _ _ Ha Hfresh Hmc)
            in Hrun. }
      rewrite (to_markup_fresh_kv _ _ _ _ _ _ _ _ _ _ _ Ha Hfresh Hmc) in Hrun.
      cbv zeta in Hrun.
      destruct (for_rows _ _ _) as [[rows s']|] eqn:Hrows; [|done].
      injection Hrun as <- <-. right. right. by exists a, c, fuel, rows.
Qed.

(** What a row of a container is: a leaf for a primitive child, the result of
    the recursive call for a container child. *)
Lemma markup_child_row_cases (h : heap)
    (rec : value -> gset addr -> pykey -> bool -> option (markup * gset addr))
    msl level is_index k v s r s' :
  markup_view.child_row h rec msl level is_index (k, v) s = Some (r, s') ->
  (exists p, v = VPrim p /\ s' = s
     /\ r = MLeaf (level + 1) k is_index (interactive_json_tree.fmt_primitive msl p))
  \/ (exists a, v = VRef a /\ rec v s k is_index = Some (r, s')).
Proof.
  unfold markup_view.child_row. destruct v as [p|a]; simpl.
  - intros [= <- <-]. left. eauto.
  - destruct (h !! a) as [[items|items]|]; [| |done]; intros Hrec; right; eauto.
Qed.

Lemma depth_countdown (x ed : Z) :
  0 <= x -> (x <? next_depth ed) = (x + 1 <? ed).
Proof.
  intros Hx. unfold next_depth.
  destruct (x + 1 <? ed) eqn:E.
  - apply Z.ltb_lt in E. apply Z.ltb_lt. lia.
  - apply Z.ltb_ge in E. apply Z.ltb_ge. lia.
Qed.

Lemma to_markup_sections fuel (h : heap) obj ed level (seen : gset addr)
    key kii mc msl m seen' :
  markup_view._to_markup fuel h obj ed level seen key kii mc msl = Some (m, seen') ->
  forall d0 d o, In (d, o) (sections_at d0 m) ->
    (d0 <= d)%nat /\ o = (Z.of_nat (d - d0) <? ed).
Proof.
  revert obj ed level seen key kii m seen'.
  induction fuel as [|fuel IH]; intros obj ed level seen key kii m seen' Hrun;
    apply to_markup_cases in Hrun
      as [(p & -> & -> & ->)|[(a & c & -> & Ha & Hin & -> & ->)
         |(a & c & fuel' & rows & -> & Ha & Hfresh & Hfuel & Hrows & ->)]];
    try (by intros d0 d o []); try discriminate Hfuel.
  injection Hfuel as <-.
  intros d0 d o [Hroot|Hin]; simpl in *.
  { injection Hroot as <- <-. split; [lia|]. by rewrite Nat.sub_diag. }
  apply in_flat_map in Hin as (r & Hr & Hin).
  apply in_app_or in Hr as [Hr|Hr].
  2:{ unfold markup_view.more_rows in Hr.
      destruct (_ <? _); [|done]. by destruct Hr as [<-|[]]. }
  assert (Hall : Forall (fun r => forall d1 d o, In (d, o) (sections_at d1 r) ->
                   (d1 <= d)%nat /\ o = (Z.of_nat (d - d1) <? next_depth ed)) rows).
  { eapply for_rows_Forall; [|exact Hrows].
    intros [k v] s r0 s0 Hrow.
    apply markup_child_row_cases in Hrow as [(p & -> & -> & ->)|(b & -> & Hrec)].
    - by intros d1 d' o' [].
    - exact (IH _ _ _ _ _ _ _ _ Hrec). }
  rewrite Forall_forall in Hall.
  destruct (Hall r (proj2 (list_elem_of_In _ _) Hr) (S d0) d o Hin) as [Hle ->].
  split; [lia|].
  rewrite depth_countdown by lia. f_equal. lia.
Qed.

Lemma to_html_markup fuel (h : heap) obj ed level (seen : gset addr)
    key kii mc msl html seen' :
  interactive_json_tree._to_html fuel h obj ed level seen key kii mc msl
  = Some (html, seen') ->
  exists m,
    markup_view._to_markup fuel h obj ed level seen key kii mc msl = Some (m, seen')
    /\ html = serialize m.
Proof.
  rewrite to_html_serialize.
  destruct (markup_view._to_markup _ _ _ _ _ _ _ _ _ _) as [[m s]|]; [|done].
  simpl. intros [= <- <-]. by exists m.
Qed.

(** Depth 0 closes the root; depth 1 opens the root only; depth 2 opens the
    root and the dict below it. *)
Example mutual_dicts_depths :
  (fun r => sections_at 0 r.1) <$>
    markup_view._to_markup 2 heap_mutual (VRef 0%nat) 0 0 ∅ KNone false None None
  = Some [(0%nat, false); (1%nat, false)]
  /\ (fun r => sections_at 0 r.1) <$>
       markup_view._to_markup 2 heap_mutual (VRef 0%nat) 1 0 ∅ KNone false None None
     = Some [(0%nat, true); (1%nat, false)]
  /\ (fun r => sections_at 0 r.1) <$>
       markup_view._to_markup 2 heap_mutual (VRef 0%nat) 2 0 ∅ KNone false None None
     = Some [(0%nat, true); (1%nat, true)].
Proof. repeat split; vm_compute; reflexivity. Qed.

(** ** Indentation *)

Lemma for_rows_Forall_in {A R} (Q : R -> Prop)
    (f : A -> gset addr -> option (R * gset addr)) xs seen rows seen' :
  (forall x s r s', x ∈ xs -> f x s = Some (r, s') -> Q r) ->
  for_rows f xs seen = Some (rows, seen') -> Forall Q rows.
Proof.
  revert seen rows seen'. induction xs as [|x xs IH]; intros seen rows seen' HQ; simpl.
  - intros [= <- <-]. constructor.
  - destruct (f x seen) as [[row seen1]|] eqn:Ex; [|done].
    destruct (for_rows f xs seen1) as [[rows1 seen2]|] eqn:E; [|done].
    intros [= <- <-]. constructor.
    + eapply HQ; [|exact Ex]. by left.
    + eapply IH; [|exact E]. intros y s r s' Hy. apply HQ. by right.
Qed.

Lemma to_markup_indented fuel (h : heap) obj ed level (seen : gset addr)
    key kii mc msl m seen' :
  markup_view._to_markup fuel h obj ed level seen key kii mc msl = Some (m, seen') ->
  indented level m.
Proof.
  revert obj ed level seen key kii m seen'.
  induction fuel as [|fuel IH]; intros obj ed level seen key kii m seen' Hrun;
    apply to_markup_cases in Hrun
      as [(p & -> & -> & ->)|[(a & c & -> & Ha & Hin & -> & ->)
         |(a & c & fuel' & rows & -> & Ha & Hfresh & Hfuel & Hrows & ->)]];
    try constructor; try discriminate Hfuel.
  injection Hfuel as <-.
  apply Forall_app. split.
  - eapply for_rows_Forall; [|exact Hrows].
    intros [k v] s r0 s0 Hrow.
    apply markup_child_row_cases in Hrow as [(p & -> & -> & ->)|(b & -> & Hrec)].
    + rewrite Nat.add_1_r. constructor.
    + apply IH in Hrec. by rewrite Nat.add_1_r in Hrec.
  - unfold markup_view.more_rows. destruct (_ <? _); [|constructor].
    rewrite Nat.add_1_r. repeat constructor.
Qed.

(** ** Tree-shaped values *)

Lemma shown_map {A B} (f : A -> B) xs mc :
  shown (map f xs) mc = map f (shown xs mc).
Proof.
  destruct mc as [m|]; simpl; [|done].
  destruct (0 <=? m); [|done]. symmetry. apply fmap_take.
Qed.

Lemma imap_pair_snd {A} (g : nat -> pykey) (xs : list A) :
  (imap (fun i x => (g i, x)) xs).*2 = xs.
Proof.
  revert g. induction xs as [|x xs IH]; intros g; simpl; [done|].
  f_equal. apply (IH (g ∘ S)).
Qed.

Lemma kv_items_children (c : container) : (kv_items c).*2 = children c.
Proof.
  destruct c as [items|items]; simpl; [done|].
  apply (imap_pair_snd (fun i : nat => KInt (Z.of_nat i))).
Qed.

Lemma sum_list_more_rows (f : markup -> nat) level size visible :
  (forall l r, f (MMore l r) = 0%nat) ->
  sum_list (map f (markup_view.more_rows level size visible)) = 0%nat.
Proof.
  intros Hf. unfold markup_view.more_rows.
  destruct (_ <? _); simpl; [|done]. by rewrite Hf.
Qed.






(** ** Counting tags in the output string *)

Lemma prefix_cons_eq a p b v :
  String.prefix (String a p) (String b v)
  = if Ascii.eqb a b then String.prefix p v else false.
Proof.
  simpl. destruct (ascii_dec a b) as [->|Hne].
  - by rewrite Ascii.eqb_refl.
  - by rewrite (proj2 (Ascii.eqb_neq a b)).
Qed.

Lemma settled_decided pat v r :
  settled pat v = true -> String.prefix pat (v +:+ r) = String.prefix pat v.
Proof.
  revert v. induction pat as [|a p IH]; intros v Hv.
  - by destruct v, r.
  - destruct v as [|b v]; [done|]. rewrite app_cons, !prefix_cons_eq.
    simpl in Hv. destruct (Ascii.eqb a b); [by apply IH|done].
Qed.

Lemma settled_app pat v r : settled pat v = true -> settled pat (v +:+ r) = true.
Proof.
  revert v. induction pat as [|a p IH]; intros v Hv; [done|].
  destruct v as [|b v]; [done|]. rewrite app_cons. simpl in *.
  destruct (Ascii.eqb a b); [by apply IH|done].
Qed.

Lemma occ_app pat s1 s2 :
  sealed pat s1 = true -> occ pat (s1 +:+ s2) = (occ pat s1 + occ pat s2)%nat.
Proof.
  induction s1 as [|c s1 IH]; [done|].
  intros Hs. apply andb_prop in Hs as [Hc Hs].
  rewrite app_cons.
  change (occ pat (String c (s1 +:+ s2)))
    with ((if String.prefix pat (String c (s1 +:+ s2)) then 1 else 0)
          + occ pat (s1 +:+ s2))%nat.
  change (occ pat (String c s1))
    with ((if String.prefix pat (String c s1) then 1 else 0) + occ pat s1)%nat.
  rewrite <- app_cons, (settled_decided _ _ _ Hc), (IH Hs). lia.
Qed.

Lemma sealed_app pat s1 s2 :
  sealed pat s1 = true -> sealed pat s2 = true -> sealed pat (s1 +:+ s2) = true.
Proof.
  intros Hs1 Hs2. induction s1 as [|c s1 IH]; [done|].
  apply andb_prop in Hs1 as [Hc Hs1]. rewrite app_cons.
  change (sealed pat (String c (s1 +:+ s2)))
    with (settled pat (String c (s1 +:+ s2)) && sealed pat (s1 +:+ s2)).
  rewrite <- app_cons, (settled_app _ _ _ Hc), (IH Hs1). done.
Qed.

Lemma counted_app pat s1 s2 n1 n2 :
  counted pat s1 n1 -> counted pat s2 n2 -> counted pat (s1 +:+ s2) (n1 + n2).
Proof.
  intros [Hs1 <-] [Hs2 <-]. split; [by apply sealed_app|by apply occ_app].
Qed.

Lemma counted_eq pat s n n' : counted pat s n -> n = n' -> counted pat s n'.
Proof. by intros ? <-. Qed.

Lemma counted_concat {A} pat (f : A -> string) (g : A -> nat) xs :
  Forall (fun x => counted pat (f x) (g x)) xs ->
  counted pat (String.concat "" (map f xs)) (sum_list (map g xs)).
Proof.
  induction 1 as [|x xs Hx Hxs IH]; [done|].
  change (map f (x :: xs)) with ([f x] ++ map f xs)%list.
  rewrite concat_app_s. simpl. by apply counted_app.
Qed.

Lemma inert_app s1 s2 : inert s1 -> inert s2 -> inert (s1 +:+ s2).
Proof. intros H1 H2 t. apply (counted_app _ _ _ 0 0); auto. Qed.

Lemma inert_empty : inert "".
Proof. by intros []. Qed.

Lemma counted_inert_l pat_tag s1 s2 n :
  inert s1 -> counted (pattern_of pat_tag) s2 n ->
  counted (pattern_of pat_tag) (s1 +:+ s2) n.
Proof. intros H1 H2. by apply (counted_app _ _ _ 0 n). Qed.

Lemma counted_inert_r pat_tag s1 s2 n :
  counted (pattern_of pat_tag) s1 n -> inert s2 ->
  counted (pattern_of pat_tag) (s1 +:+ s2) n.
Proof.
  intros H1 H2. eapply counted_eq; [by apply (counted_app _ _ _ n 0)|lia].
Qed.

Lemma inertb_sound s : inertb s = true -> inert s.
Proof.
  unfold inertb. rewrite forallb_forall. intros Hall t.
  assert (In t [TagCircular; TagSummary; TagLeaf]) as Hin.
  { destruct t; simpl; auto. }
  apply Hall, andb_prop in Hin as [Hs Ho].
  split; [done|]. by apply Nat.eqb_eq.
Qed.

Lemma lt_free_tagless pat s :
  lt_free s = true -> sealed (String "<" pat) s = true /\ occ (String "<" pat) s = 0%nat.
Proof.
  induction s as [|c s IH]; [done|].
  intros Hs. apply andb_prop in Hs as [Hc Hs]. destruct (IH Hs) as [Hsealed Hocc].
  apply negb_true_iff in Hc.
  assert (Ascii.eqb "<" c = false) as Hc' by (by rewrite Ascii.eqb_sym).
  split.
  - change (sealed (String "<" pat) (String c s))
      with ((if Ascii.eqb "<" c then settled pat s else true)
            && sealed (String "<" pat) s).
    by rewrite Hc', Hsealed.
  - change (occ (String "<" pat) (String c s))
      with ((if String.prefix (String "<" pat) (String c s) then 1 else 0)
            + occ (String "<" pat) s)%nat.
    by rewrite prefix_cons_eq, Hc', Hocc.
Qed.

Lemma inert_lt_free s : lt_free s = true -> inert s.
Proof. intros Hs []; by apply lt_free_tagless. Qed.

Lemma lt_free_app s1 s2 :
  lt_free s1 = true -> lt_free s2 = true -> lt_free (s1 +:+ s2) = true.
Proof.
  intros H1 H2. induction s1 as [|c s1 IH]; [done|].
  apply andb_prop in H1 as [Hc H1]. rewrite app_cons. simpl.
  by rewrite Hc, IH.
Qed.

Lemma lt_free_escape s : lt_free (html_escape s) = true.
Proof.
  induction s as [|c s IH]; [done|]. simpl. apply lt_free_app; [|done].
  unfold escape_char.
  destruct (Ascii.eqb c "&"); [done|].
  destruct (Ascii.eqb c "<") eqn:E; [done|].
  destruct (Ascii.eqb c ">"); [done|]. simpl. by rewrite E.
Qed.

Lemma pretty_N_char_not_lt x : Ascii.eqb (pretty_N_char x) "<" = false.
Proof. unfold pretty_N_char. by repeat case_match. Qed.

Lemma lt_free_pretty_N_go x s :
  lt_free s = true -> lt_free (pretty_N_go x s) = true.
Proof.
  revert s. induction (N.lt_wf_0 x) as [x _ IH]; intros s Hs.
  destruct (decide (x = 0)%N) as [->|Hx]; [by rewrite pretty_N_go_0|].
  rewrite pretty_N_go_step by lia. apply IH.
  - apply N.div_lt; lia.
  - simpl. by rewrite pretty_N_char_not_lt.
Qed.

Lemma lt_free_pretty_N (x : N) : lt_free (pretty x) = true.
Proof.
  unfold pretty, pretty_N. case_decide; [done|]. by apply lt_free_pretty_N_go.
Qed.

Lemma lt_free_pretty_nat (x : nat) : lt_free (pretty x) = true.
Proof. apply lt_free_pretty_N. Qed.

Lemma lt_free_pretty_Z (x : Z) : lt_free (pretty x) = true.
Proof.
  destruct x as [|p|p]; [done|apply lt_free_pretty_N|].
  apply (lt_free_app "-"); [done|apply lt_free_pretty_N].
Qed.

Lemma lt_free_indent_rem level : lt_free (indent_rem level) = true.
Proof.
  unfold indent_rem. apply lt_free_app; [apply lt_free_pretty_nat|].
  by destruct (Nat.even level).
Qed.

Lemma lt_free_float_str t : lt_free (float_str t) = true.
Proof. induction t as [|c t IH]; [done|]. simpl. rewrite IH. by destruct c. Qed.

Create HintDb lt_free.
#[local] Hint Resolve lt_free_escape lt_free_pretty_nat lt_free_pretty_Z
  lt_free_indent_rem lt_free_float_str : lt_free.

(** Split a concatenation into its pieces and settle each of them: a piece
    without [<] is inert, and so is a literal that passes the check. *)
Ltac inert_atom :=
  first
    [ assumption
    | apply inert_empty
    | apply inert_lt_free; first [reflexivity | solve [auto with lt_free]]
    | apply inertb_sound; vm_compute; reflexivity ].

Ltac solve_inert :=
  repeat lazymatch goal with
    | |- inert (_ +:+ _) => apply inert_app
    | |- inert (if ?b then _ else _) => destruct b
    end;
  inert_atom.

Lemma inert_key_prefix k is_index :
  key_ok k is_index -> inert (interactive_json_tree.key_prefix_html k is_index).
Proof.
  intros Hok. unfold interactive_json_tree.key_prefix_html.
  destruct k as [|s|z]; [solve_inert| |].
  - destruct is_index; [by destruct (Hok eq_refl s)|].
    unfold interactive_json_tree.esc. solve_inert.
  - destruct is_index; unfold interactive_json_tree.esc; simpl str_key; solve_inert.
Qed.

Lemma inert_fmt_primitive msl p : inert (interactive_json_tree.fmt_primitive msl p).
Proof.
  unfold interactive_json_tree.fmt_primitive, interactive_json_tree.esc.
  destruct p as [s| |b|z|t|r]; simpl.
  - destruct (interactive_json_tree.string_too_long msl s); solve_inert.
  - solve_inert.
  - destruct b; solve_inert.
  - solve_inert.
  - solve_inert.
  - solve_inert.
Qed.

Lemma inert_summary_label k is_index c visible size :
  key_ok k is_index ->
  inert (interactive_json_tree.summary_label k is_index (type_tag c) visible size).
Proof.
  intros Hok. pose proof (inert_key_prefix _ _ Hok) as Hkey.
  unfold interactive_json_tree.summary_label, interactive_json_tree.count_display.
  destruct c; simpl type_tag;
    destruct (negb (visible =? size)); solve_inert.
Qed.

Lemma markup_nested_ind (P : markup -> Prop) :
  (forall l k i v, P (MLeaf l k i v)) ->
  P MCircular ->
  (forall l r, P (MMore l r)) ->
  (forall o l label rows, Forall P rows -> P (MDetails o l label rows)) ->
  forall m, P m.
Proof.
  intros Hleaf Hcirc Hmore Hdet. fix IH 1. intros [l k i v| |l r|o l label rows].
  - apply Hleaf.
  - apply Hcirc.
  - apply Hmore.
  - apply Hdet. induction rows as [|r rows IHrows]; constructor; [apply IH|done].
Qed.

Lemma enumerate_keys {A} (xs : list A) kv :
  kv ∈ enumerate xs -> exists z, kv.1 = KInt z.
Proof.
  unfold enumerate. intros Hin.
  apply list_elem_of_lookup in Hin as [i Hi].
  rewrite list_lookup_imap in Hi.
  destruct (xs !! i) as [x|]; [|done]. injection Hi as <-. by eexists.
Qed.

Lemma kv_items_key_ok c kv : kv ∈ kv_items c -> key_ok kv.1 (is_seq c).
Proof.
  destruct c as [items|items]; simpl; intros Hin Hidx; [done|].
  destruct (enumerate_keys _ _ Hin) as [z ->]. done.
Qed.

Lemma shown_subseteq {A} (xs : list A) mc x : x ∈ shown xs mc -> x ∈ xs.
Proof.
  destruct mc as [m|]; simpl; [|done].
  destruct (0 <=? m); [|done]. apply subseteq_take.
Qed.

Lemma to_markup_rendered fuel (h : heap) obj ed level (seen : gset addr)
    key kii mc msl m seen' :
  markup_view._to_markup fuel h obj ed level seen key kii mc msl = Some (m, seen') ->
  key_ok key kii -> rendered m.
Proof.
  revert obj ed level seen key kii m seen'.
  induction fuel as [|fuel IH]; intros obj ed level seen key kii m seen' Hrun Hok;
    apply to_markup_cases in Hrun
      as [(p & -> & -> & ->)|[(a & c & -> & Ha & Hin & -> & ->)
         |(a & c & fuel' & rows & -> & Ha & Hfresh & Hfuel & Hrows & ->)]];
    try discriminate Hfuel;
    try (constructor; [by apply inert_key_prefix|apply inert_fmt_primitive]);
    try constructor.
  { by apply inert_summary_label. }
  injection Hfuel as <-.
  apply Forall_app. split.
  - eapply for_rows_Forall_in; [|exact Hrows].
    intros [k v] s r0 s0 Hkv Hrow.
    apply shown_subseteq, kv_items_key_ok in Hkv.
    apply markup_child_row_cases in Hrow as [(p & -> & -> & ->)|(b & -> & Hrec)].
    + constructor; [by apply inert_key_prefix|apply inert_fmt_primitive].
    + by apply IH in Hrec.
  - unfold markup_view.more_rows. destruct (_ <? _); repeat constructor.
Qed.

Lemma counted_literal t s n :
  sealed (pattern_of t) s && Nat.eqb (occ (pattern_of t) s) n = true ->
  counted (pattern_of t) s n.
Proof. intros [Hs Ho]%andb_prop. split; [done|by apply Nat.eqb_eq]. Qed.

Lemma serialize_counted m :
  rendered m -> forall t, counted (pattern_of t) (serialize m) (count_tag t m).
Proof.
  induction m as [l k i v| |l r|o l label rows IH] using markup_nested_ind;
    intros Hm t.
  - inversion Hm as [? ? ? ? Hkey Hval| | |]; subst.
    change (serialize (MLeaf l k i v))
      with (LEAF_OPEN +:+ " style=" +:+ q +:+ "margin-left:" +:+ indent_rem l
            +:+ "rem" +:+ q +:+ ">"
            +:+ interactive_json_tree.key_prefix_html k i +:+ v +:+ "</div>").
    apply counted_inert_r; [|solve_inert].
    destruct t; apply counted_literal; vm_compute; reflexivity.
  - destruct t; apply counted_literal; vm_compute; reflexivity.
  - change (serialize (MMore l r))
      with (MORE_OPEN +:+ " style=" +:+ q +:+ "margin-left:" +:+ indent_rem l
            +:+ "rem" +:+ q +:+ ">" +:+ "<em>... " +:+ pretty r +:+ " more item"
            +:+ (if negb (r =? 1) then "s" else "") +:+ "</em></div>").
    apply counted_inert_r; [|solve_inert].
    destruct t; apply counted_literal; vm_compute; reflexivity.
  - inversion Hm as [| | |? ? ? ? Hlabel Hrows]; subst.
    assert (Hall : Forall (fun r => counted (pattern_of t) (serialize r)
                                      (count_tag t r)) rows).
    { rewrite Forall_forall in IH, Hrows. apply Forall_forall.
      intros r Hr. by apply IH, Hrows. }
    apply (counted_concat _ serialize (count_tag t)) in Hall.
    change (serialize (MDetails o l label rows))
      with ("<details class=" +:+ q +:+ "jt-details" +:+ q
            +:+ (if o then " open" else "") +:+ " style=" +:+ q
            +:+ "margin-left:" +:+ indent_rem l +:+ "rem" +:+ q +:+ ">"
            +:+ SUMMARY_OPEN +:+ q +:+ "jt-summary" +:+ q +:+ ">" +:+ label
            +:+ "</summary>"
            +:+ String.concat "" (map serialize rows)
            +:+ "</details>").
    do 12 (apply counted_inert_l; [solve_inert|]).
    eapply counted_eq.
    + apply counted_app;
        [apply (counted_literal t SUMMARY_OPEN
                  (match t with TagSummary => 1 | _ => 0 end));
         by destruct t; vm_compute|].
      do 6 (apply counted_inert_l; [solve_inert|]).
      apply counted_inert_r; [exact Hall|solve_inert].
    + destruct t; simpl; try done.
      rewrite !sum_list_with_app || idtac.
      clear. induction rows as [|r rows IH]; simpl; [done|]. lia.
Qed.

(** ** Acyclic values: sharing and trees *)




(** ** The revisit marker is not indented *)

(** C8 fails on the code at a revisit.  In [a = []; a.append(a);
    a.append("x")] rendered at level 0, the row of the string carries
    [margin-left:0.5rem], the offset of level 1, but the row of the revisited
    list is the bare marker: it carries no [margin-left] at all, at any
    level, although the other rows carry one. *)
Theorem circular_leaf_not_indented :
  fst <$> interactive_json_tree._to_html 1 heap_self_list (VRef 0%nat) 1 0 ∅
            KNone false (Some 100) (Some 2000)
  = Some ("<details class=" +:+ q +:+ "jt-details" +:+ q +:+ " open style=" +:+ q
          +:+ "margin-left:0.0rem" +:+ q +:+ "><summary class=" +:+ q
          +:+ "jt-summary" +:+ q +:+ ">[] Array <span class=" +:+ q +:+ "jt-punct"
          +:+ q +:+ ">(2)</span></summary>"
          +:+ "<div class=" +:+ q +:+ "jt-leaf" +:+ q +:+ "><em>[Circular]</em></div>"
          +:+ "<div class=" +:+ q +:+ "jt-leaf" +:+ q +:+ " style=" +:+ q
          +:+ "margin-left:0.5rem" +:+ q +:+ "><span class=" +:+ q +:+ "jt-key" +:+ q
          +:+ ">[1]</span><span class=" +:+ q +:+ "jt-punct" +:+ q
          +:+ ">: </span><span class=" +:+ q +:+ "jt-str" +:+ q +:+ ">" +:+ q +:+ "x"
          +:+ q +:+ "</span></div></details>")
  /\ occ "margin-left" CIRCULAR = 0%nat
  /\ (forall fuel level ed key kii mc msl,
        interactive_json_tree._to_html fuel heap_self_list (VRef 0%nat) ed level
          {[0%nat]} key kii mc msl = Some (CIRCULAR, {[0%nat]}))
  /\ (forall fuel level ed key kii,
        json_tree._to_html fuel heap_self_list (VRef 0%nat) ed level
          {[0%nat]} key kii = Some (CIRCULAR, {[0%nat]})).
Proof.
  split; [by vm_compute|]. split; [by vm_compute|]. split.
  - intros. apply to_html_revisit with (CSeq [VRef 0%nat; VPrim (PStr "x")]);
      [reflexivity|by apply elem_of_singleton].
  - intros. apply to_html_minimal_revisit with (CSeq [VRef 0%nat; VPrim (PStr "x")]);
      [reflexivity|by apply elem_of_singleton].
Qed.

(** Every other fragment is indented by its level: the fragment tree of a
    call at [level] is [indented] at [level], and a fragment of level [l] is
    written with [margin-left:{l * 0.5}rem]. *)
Lemma to_html_indented fuel (h : heap) obj ed level (seen : gset addr)
    key kii mc msl html seen' :
  interactive_json_tree._to_html fuel h obj ed level seen key kii mc msl
  = Some (html, seen') ->
  exists m, html = serialize m /\ indented level m.
Proof.
  intros Hrun. apply to_html_markup in Hrun as (m & Hm & ->).
  exists m. split; [done|]. by apply to_markup_indented in Hm.
Qed.

Lemma indent_rem_half (k : nat) :
  indent_rem (2 * k) = pretty k +:+ ".0"
  /\ indent_rem (2 * k + 1) = pretty k +:+ ".5".
Proof.
  unfold indent_rem. split.
  - replace (2 * k)%nat with (k * 2)%nat by lia.
    rewrite Nat.div_mul by done.
    replace (k * 2)%nat with (2 * k)%nat by lia.
    by rewrite Nat.even_mul.
  - replace (2 * k + 1)%nat with (1 + k * 2)%nat by lia.
    rewrite Nat.div_add by done. simpl Nat.div.
    replace (1 + k * 2)%nat with (S (2 * k)) by lia.
    rewrite Nat.even_succ, Nat.odd_mul. done.
Qed.

(** * Further properties *)

(** ** Escaping *)

Lemma mentions_app c s1 s2 :
  mentions c (s1 +:+ s2) = mentions c s1 || mentions c s2.
Proof.
  induction s1 as [|c' s1 IH]; [done|].
  rewrite app_cons. simpl. by rewrite IH, orb_assoc.
Qed.

Lemma escape_char_cases c :
  (c = "&"%char /\ escape_char c = "&amp;")
  \/ (c = "<"%char /\ escape_char c = "&lt;")
  \/ (c = ">"%char /\ escape_char c = "&gt;")
  \/ (Ascii.eqb c "&" = false /\ Ascii.eqb c "<" = false
      /\ Ascii.eqb c ">" = false /\ escape_char c = String c "").
Proof.
  unfold escape_char.
  destruct (Ascii.eqb c "&") eqn:Eamp.
  { apply Ascii.eqb_eq in Eamp as ->. by left. }
  destruct (Ascii.eqb c "<") eqn:Elt.
  { apply Ascii.eqb_eq in Elt as ->. right. by left. }
  destruct (Ascii.eqb c ">") eqn:Egt.
  { apply Ascii.eqb_eq in Egt as ->. right. right. by left. }
  by repeat right.
Qed.

Lemma escape_length s : (String.length s <= String.length (html_escape s))%nat.
Proof.
  induction s as [|c s IH]; [done|]. simpl. rewrite app_length_s.
  destruct (escape_char_cases c)
    as [[_ ->]|[[_ ->]|[[_ ->]|(_ & _ & _ & ->)]]]; simpl; lia.
Qed.

(** X1. The text [esc] returns holds neither [<] nor [>], whatever the input,
    and is at least as long as the input. *)
Theorem escape_is_markup_free (s : string) :
  mentions "<" (html_escape s) = false
  /\ mentions ">" (html_escape s) = false
  /\ (String.length s <= String.length (html_escape s))%nat.
Proof.
  split; [|split; [|apply escape_length]].
  - induction s as [|c s IH]; [done|]. simpl. rewrite mentions_app, IH.
    destruct (escape_char_cases c)
      as [[_ ->]|[[_ ->]|[[_ ->]|(_ & E & _ & ->)]]]; try done.
    simpl. by rewrite E.
  - induction s as [|c s IH]; [done|]. simpl. rewrite mentions_app, IH.
    destruct (escape_char_cases c)
      as [[_ ->]|[[_ ->]|[[_ ->]|(_ & _ & E & ->)]]]; try done.
    simpl. by rewrite E.
Qed.

(** X19. [esc] leaves a text as it is exactly when the text holds none of
    [&], [<] and [>]. *)
Theorem escape_identity_iff_plain (s : string) :
  html_escape s = s
  <-> mentions "&" s = false /\ mentions "<" s = false /\ mentions ">" s = false.
Proof.
  split.
  - induction s as [|c s IH]; [done|]. simpl. intros Heq.
    destruct (escape_char_cases c)
      as [[-> E]|[[-> E]|[[-> E]|(Ea & El & Eg & E)]]]; rewrite E in Heq.
    + exfalso. rewrite app_cons in Heq. injection Heq as Heq.
      apply (f_equal String.length) in Heq.
      rewrite app_length_s in Heq. pose proof (escape_length s). simpl in Heq. lia.
    + by rewrite app_cons in Heq.
    + by rewrite app_cons in Heq.
    + rewrite app_cons, app_empty_l in Heq. injection Heq as Heq.
      destruct (IH Heq) as (? & ? & ?). by rewrite Ea, El, Eg.
  - induction s as [|c s IH]; [done|]. simpl. intros (Ha & Hl & Hg).
    apply orb_false_elim in Ha as [Ea Ha].
    apply orb_false_elim in Hl as [El Hl].
    apply orb_false_elim in Hg as [Eg Hg].
    rewrite IH by done. unfold escape_char. by rewrite Ea, El, Eg.
Qed.

Lemma escape_identity_iff_plain_witness : html_escape "a.b c" = "a.b c".
Proof.
  apply (proj2 (escape_identity_iff_plain "a.b c")).
  repeat split; reflexivity.
Defined.

Lemma unescape_escape s : html_unescape (html_escape s) = s.
Proof.
  induction s as [|c s IH]; [done|].
  change (html_escape (String c s)) with (escape_char c +:+ html_escape s).
  destruct (escape_char_cases c)
    as [[-> E]|[[-> E]|[[-> E]|(Ea & _ & _ & E)]]]; rewrite E.
  - change ("&amp;" +:+ html_escape s)
      with (String "&" (String "a" (String "m" (String "p" (String ";"
              (html_escape s)))))).
    simpl. by rewrite IH.
  - change ("&lt;" +:+ html_escape s)
      with (String "&" (String "l" (String "t" (String ";" (html_escape s))))).
    simpl. by rewrite IH.
  - change ("&gt;" +:+ html_escape s)
      with (String "&" (String "g" (String "t" (String ";" (html_escape s))))).
    simpl. by rewrite IH.
  - change (String c "" +:+ html_escape s) with (String c (html_escape s)).
    simpl. by rewrite Ea, IH.
Qed.

(** X2. Escaping loses nothing: a text is read back from its escaped form,
    so two different texts are never escaped to the same one.  (This is
    about texts.  A key is turned into a text by [str] before it is escaped,
    and that step is not one-to-one: see [key_labels_collide].) *)
Theorem escape_injective (s1 s2 : string) :
  html_unescape (html_escape s1) = s1
  /\ (html_escape s1 = html_escape s2 -> s1 = s2).
Proof.
  split; [apply unescape_escape|].
  intros Heq. rewrite <- (unescape_escape s1), <- (unescape_escape s2).
  by rewrite Heq.
Qed.

Lemma escape_injective_witness : html_unescape (html_escape "a<b&c") = "a<b&c".
Proof. exact (proj1 (escape_injective "a<b&c" "a<b&c")). Defined.

(** The int key [1] and the str key ["1"] of a dict get the same label. *)
Example key_labels_collide :
  interactive_json_tree.key_prefix_html (KInt 1) false
  = interactive_json_tree.key_prefix_html (KStr "1") false.
Proof. reflexivity. Qed.

(** ** The visited set *)

Lemma size_difference_chain (s0 s1 s2 : gset addr) :
  s0 ⊆ s1 -> s1 ⊆ s2 ->
  size (s2 ∖ s0) = (size (s1 ∖ s0) + size (s2 ∖ s1))%nat.
Proof.
  intros H01 H12.
  assert (s2 ∖ s0 = (s1 ∖ s0) ∪ (s2 ∖ s1)) as ->.
  { apply set_eq. intros x.
    rewrite elem_of_union, !elem_of_difference.
    destruct (decide (x ∈ s1)); set_solver. }
  apply size_union. set_solver.
Qed.

Lemma for_rows_visits {A} (h : heap)
    (body : A -> gset addr -> option (markup * gset addr)) xs :
  (forall x s r s', body x s = Some (r, s') -> visits h s r s') ->
  forall seen rows seen',
    for_rows body xs seen = Some (rows, seen') ->
    seen ⊆ seen' /\ seen' ⊆ seen ∪ dom h
    /\ sum_list (map headers rows) = size (seen' ∖ seen).
Proof.
  intros Hbody. induction xs as [|x xs IH]; intros seen rows seen'.
  - simpl. intros [= <- <-]. split; [done|]. split; [set_solver|].
    simpl. symmetry. apply size_empty_iff. set_solver.
  - cbn [for_rows].
    destruct (body x seen) as [[row s1]|] eqn:Hrow; [|done].
    destruct (for_rows body xs s1) as [[rows1 s2]|] eqn:Hrows; [|done].
    intros [= <- <-].
    destruct (Hbody _ _ _ _ Hrow) as (H01 & Hdom1 & Hn1).
    destruct (IH _ _ _ Hrows) as (H12 & Hdom2 & Hn2).
    split; [set_solver|]. split; [set_solver|].
    simpl. rewrite Hn1, Hn2. symmetry. by apply size_difference_chain.
Qed.

Lemma to_markup_visits fuel (h : heap) obj ed level (seen : gset addr)
    key kii mc msl m seen' :
  markup_view._to_markup fuel h obj ed level seen key kii mc msl = Some (m, seen') ->
  visits h seen m seen' /\ (forall a, obj = VRef a -> a ∈ seen' /\ is_Some (h !! a)).
Proof.
  revert obj ed level seen key kii m seen'.
  induction fuel as [|fuel IH]; intros obj ed level seen key kii m seen' Hrun;
    apply to_markup_cases in Hrun
      as [(p & -> & -> & ->)|[(a & c & -> & Ha & Hin & -> & ->)
         |(a & c & fuel' & rows & -> & Ha & Hfresh & Hfuel & Hrows & ->)]];
    try discriminate Hfuel.
  1, 3: (split; [|done]; split; [done|]; split; [set_solver|];
         simpl; symmetry; apply size_empty_iff; set_solver).
  1, 2: (split; [|by intros ? [= <-]; eauto]; split; [done|]; split; [set_solver|];
         simpl; symmetry; apply size_empty_iff; set_solver).
  injection Hfuel as <-.
  apply for_rows_visits with (h := h) in Hrows as (Hsub & Hdom & Hn).
  2:{ intros [k v] s r s' Hrow.
      apply markup_child_row_cases in Hrow as [(p & -> & -> & ->)|(b & -> & Hrec)].
      - split; [done|]. split; [set_solver|].
        simpl. symmetry. apply size_empty_iff. set_solver.
      - by apply IH in Hrec as [? _]. }
  assert (a ∈ dom h) as Hadom by (apply elem_of_dom; eauto).
  split; [|intros ? [= <-]; split; [set_solver|eauto]].
  split; [set_solver|]. split; [set_solver|].
  simpl. rewrite map_app, sum_list_with_app, sum_list_more_rows by done.
  rewrite Hn, (size_difference_chain seen ({[a]} ∪ seen) seen') by set_solver.
  assert (({[a]} ∪ seen) ∖ seen = {[a]}) as -> by set_solver.
  rewrite size_singleton. lia.
Qed.

(** X3. The visited set only grows, and only by identities of containers of
    the heap; a container the call was made on is in it afterwards. *)
Theorem seen_only_grows fuel (h : heap) obj ed level (seen : gset addr)
    key kii mc msl html seen' :
  interactive_json_tree._to_html fuel h obj ed level seen key kii mc msl
  = Some (html, seen') ->
  seen ⊆ seen' /\ seen' ⊆ seen ∪ dom h /\ (forall a, obj = VRef a -> a ∈ seen').
Proof.
  intros Hrun. apply to_html_markup in Hrun as (m & Hm & _).
  apply to_markup_visits in Hm as [(Hsub & Hdom & _) Hroot].
  split; [done|]. split; [done|]. intros a Ha. by destruct (Hroot a Ha).
Qed.

Lemma seen_only_grows_witness :
  match interactive_json_tree._to_html 2 heap_mutual (VRef 0%nat) 1 0 ∅ KNone false
          (Some 100) (Some 2000) with
  | Some (_, seen') => ∅ ⊆ seen' /\ seen' ⊆ ∅ ∪ dom heap_mutual
  | None => False
  end.
Proof.
  destruct (interactive_json_tree._to_html 2 heap_mutual (VRef 0%nat) 1 0 ∅ KNone
              false (Some 100) (Some 2000)) as [[html seen']|] eqn:Hrun.
  - destruct (seen_only_grows _ _ _ _ _ _ _ _ _ _ _ _ Hrun) as (H1 & H2 & _).
    split; [exact H1|exact H2].
  - vm_compute in Hrun. discriminate Hrun.
Defined.

(** X4. Every container is rendered at most once in a render: the output has
    exactly as many section headers as identities were added to the visited
    set, hence at most as many as the heap has containers not yet seen. *)
Theorem one_section_per_container fuel (h : heap) obj ed level (seen : gset addr)
    key kii mc msl html seen' :
  key_ok key kii ->
  interactive_json_tree._to_html fuel h obj ed level seen key kii mc msl
  = Some (html, seen') ->
  occ "<summary " html = size (seen' ∖ seen)
  /\ (occ "<summary " html <= size (dom h ∖ seen))%nat.
Proof.
  intros Hok Hrun. apply to_html_markup in Hrun as (m & Hm & ->).
  pose proof (to_markup_visits _ _ _ _ _ _ _ _ _ _ _ _ Hm) as [(Hsub & Hdom & Hn) _].
  destruct (serialize_counted m (to_markup_rendered _ _ _ _ _ _ _ _ _ _ _ _ Hm Hok)
              TagSummary) as [_ Hocc].
  simpl in Hocc. rewrite Hocc, Hn. split; [done|].
  apply subseteq_size. set_solver.
Qed.

Lemma one_section_per_container_witness :
  match interactive_json_tree._to_html 2 heap_mutual (VRef 0%nat) 1 0 ∅ KNone false
          (Some 100) (Some 2000) with
  | Some (html, seen') => occ "<summary " html = size (seen' ∖ ∅)
  | None => False
  end.
Proof.
  destruct (interactive_json_tree._to_html 2 heap_mutual (VRef 0%nat) 1 0 ∅ KNone
              false (Some 100) (Some 2000)) as [[html seen']|] eqn:Hrun.
  - refine (proj1 (one_section_per_container _ _ _ _ _ _ _ _ _ _ _ _ _ Hrun)).
    intros Hidx. discriminate Hidx.
  - vm_compute in Hrun. discriminate Hrun.
Defined.

(** X5. The visited set cannot be reused: once a call on a container has
    returned, any further call on that container with the set it left, at
    whatever level, depth, key and limits, returns the [[Circular]] marker. *)
Theorem reused_seen_gives_marker fuel (h : heap) a ed level (seen : gset addr)
    key kii mc msl html seen' fuel2 ed2 level2 key2 kii2 mc2 msl2 :
  interactive_json_tree._to_html fuel h (VRef a) ed level seen key kii mc msl
  = Some (html, seen') ->
  interactive_json_tree._to_html fuel2 h (VRef a) ed2 level2 seen' key2 kii2
    mc2 msl2 = Some (CIRCULAR, seen').
Proof.
  intros Hrun. apply to_html_markup in Hrun as (m & Hm & _).
  apply to_markup_visits in Hm as [_ Hroot].
  destruct (Hroot a eq_refl) as [Hin [c Ha]].
  by apply to_html_revisit with c.
Qed.

Lemma reused_seen_gives_marker_witness :
  match interactive_json_tree._to_html 1 heap_three (VRef 0%nat) 1 0 ∅ KNone false
          (Some 100) (Some 2000) with
  | Some (_, seen') =>
      interactive_json_tree._to_html 1 heap_three (VRef 0%nat) 1 0 seen' KNone
        false (Some 100) (Some 2000) = Some (CIRCULAR, seen')
  | None => False
  end.
Proof.
  destruct (interactive_json_tree._to_html 1 heap_three (VRef 0%nat) 1 0 ∅ KNone
              false (Some 100) (Some 2000)) as [[html seen']|] eqn:Hrun.
  - exact (reused_seen_gives_marker _ _ _ _ _ _ _ _ _ _ _ _ _ _ _ _ _ _ _ Hrun).
  - vm_compute in Hrun. discriminate Hrun.
Defined.

(** ** Balanced markup *)

Lemma net_app e s1 s2 n1 n2 :
  net e s1 n1 -> net e s2 n2 -> net e (s1 +:+ s2) (n1 + n2).
Proof.
  intros (Ho1 & Hc1 & <-) (Ho2 & Hc2 & <-).
  split; [by apply sealed_app|]. split; [by apply sealed_app|].
  rewrite !occ_app by done. lia.
Qed.

Lemma net_eq e s n n' : net e s n -> n = n' -> net e s n'.
Proof. by intros ? <-. Qed.

Lemma net_lt_free e s : lt_free s = true -> net e s 0.
Proof.
  intros Hs.
  assert (forall p1 p2,
            sealed (String "<" p1) s = true /\ sealed (String "<" p2) s = true
            /\ Z.of_nat (occ (String "<" p1) s) - Z.of_nat (occ (String "<" p2) s)
               = 0) as Hp.
  { intros p1 p2.
    destruct (lt_free_tagless p1 s Hs) as [Hs1 ->].
    destruct (lt_free_tagless p2 s Hs) as [Hs2 ->]. done. }
  destruct e; apply Hp.
Qed.

Lemma net_literal e s :
  sealed (open_tag e) s && sealed (close_tag e) s = true ->
  net e s (Z.of_nat (occ (open_tag e) s) - Z.of_nat (occ (close_tag e) s)).
Proof. intros [Ho Hc]%andb_prop. by repeat split. Qed.

Lemma net_concat {A} e (f : A -> string) xs :
  Forall (fun x => net e (f x) 0) xs ->
  net e (String.concat "" (map f xs)) 0.
Proof.
  induction 1 as [|x xs Hx Hxs IH]; [by repeat split|].
  change (map f (x :: xs)) with ([f x] ++ map f xs)%list.
  rewrite concat_app_s. simpl. by apply (net_app e _ _ 0 0).
Qed.

Lemma balanced_app s1 s2 : balanced s1 -> balanced s2 -> balanced (s1 +:+ s2).
Proof. intros H1 H2 e. apply (net_app e _ _ 0 0); auto. Qed.

Lemma net_balance e s :
  net e s 0 -> occ (open_tag e) s = occ (close_tag e) s.
Proof. intros (_ & _ & Hn). lia. Qed.

(** Take a concatenation apart, settle the net count of each piece (a piece
    without [<] counts nothing, a literal is counted by evaluation, a piece
    known to be balanced counts nothing), and add up. *)
Ltac net_atom :=
  first
    [ eassumption
    | lazymatch goal with
      | H : balanced ?s |- net _ ?s _ => apply H
      end
    | apply net_lt_free; first [reflexivity | solve [auto with lt_free]]
    | apply net_literal; vm_compute; reflexivity ].

Ltac net_chain :=
  lazymatch goal with
  | |- net _ (_ +:+ _) _ => eapply net_app; [net_chain|net_chain]
  | _ => net_atom
  end.

Ltac solve_net :=
  repeat match goal with
    | |- context [if ?b then _ else _] => destruct b
    end;
  (eapply net_eq; [net_chain|vm_compute; reflexivity]).

Lemma balanced_key_prefix k is_index :
  key_ok k is_index -> balanced (interactive_json_tree.key_prefix_html k is_index).
Proof.
  intros Hok e. unfold interactive_json_tree.key_prefix_html,
    interactive_json_tree.esc.
  destruct k as [|s|z].
  - by apply net_lt_free.
  - destruct is_index; [by destruct (Hok eq_refl s)|].
    simpl str_key. destruct e; solve_net.
  - simpl str_key. destruct is_index, e; solve_net.
Qed.

Lemma balanced_fmt_primitive msl p :
  balanced (interactive_json_tree.fmt_primitive msl p).
Proof.
  intros e. unfold interactive_json_tree.fmt_primitive, interactive_json_tree.esc.
  destruct p as [s| |b|z|t|r]; simpl.
  - destruct (interactive_json_tree.string_too_long msl s), e; solve_net.
  - destruct e; solve_net.
  - destruct b, e; solve_net.
  - destruct e; solve_net.
  - destruct e; solve_net.
  - destruct e; solve_net.
Qed.

Lemma balanced_summary_label k is_index c visible size :
  key_ok k is_index ->
  balanced (interactive_json_tree.summary_label k is_index (type_tag c) visible size).
Proof.
  intros Hok e. pose proof (balanced_key_prefix _ _ Hok) as Hkey.
  unfold interactive_json_tree.summary_label, interactive_json_tree.count_display.
  destruct c; simpl type_tag;
    destruct (negb (visible =? size)), e; solve_net.
Qed.

Lemma to_markup_data_all (P : string -> Prop) fuel (h : heap) obj ed level
    (seen : gset addr) key kii mc msl m seen' :
  (forall k i, key_ok k i -> P (interactive_json_tree.key_prefix_html k i)) ->
  (forall l p, P (interactive_json_tree.fmt_primitive l p)) ->
  (forall k i c visible size,
     key_ok k i ->
     P (interactive_json_tree.summary_label k i (type_tag c) visible size)) ->
  markup_view._to_markup fuel h obj ed level seen key kii mc msl = Some (m, seen') ->
  key_ok key kii -> data_all P m.
Proof.
  intros Hkey Hval Hlabel.
  revert obj ed level seen key kii m seen'.
  induction fuel as [|fuel IH]; intros obj ed level seen key kii m seen' Hrun Hok;
    apply to_markup_cases in Hrun
      as [(p & -> & -> & ->)|[(a & c & -> & Ha & Hin & -> & ->)
         |(a & c & fuel' & rows & -> & Ha & Hfresh & Hfuel & Hrows & ->)]];
    try discriminate Hfuel;
    try (constructor; [by apply Hkey|apply Hval]);
    try constructor.
  { by apply Hlabel. }
  injection Hfuel as <-.
  apply Forall_app. split.
  - eapply for_rows_Forall_in; [|exact Hrows].
    intros [k v] s r0 s0 Hkv Hrow.
    apply shown_subseteq, kv_items_key_ok in Hkv.
    apply markup_child_row_cases in Hrow as [(p & -> & -> & ->)|(b & -> & Hrec)].
    + constructor; [by apply Hkey|apply Hval].
    + by apply IH in Hrec.
  - unfold markup_view.more_rows. destruct (_ <? _); repeat constructor.
Qed.

Lemma serialize_balanced m : data_all balanced m -> balanced (serialize m).
Proof.
  induction m as [l k i v| |l r|o l label rows IH] using markup_nested_ind;
    intros Hm e.
  - inversion Hm as [? ? ? ? Hkey Hval| | |]; subst.
    cbn [serialize]. destruct e; solve_net.
  - cbn [serialize].
    destruct e;
      (eapply net_eq;
       [apply net_literal; vm_compute; reflexivity|vm_compute; reflexivity]).
  - cbn [serialize]. destruct e; solve_net.
  - inversion Hm as [| | |? ? ? ? Hlabel Hrows]; subst.
    assert (Hall : net e (String.concat "" (map serialize rows)) 0).
    { apply net_concat. rewrite Forall_forall in IH, Hrows. apply Forall_forall.
      intros r Hr. by apply IH, Hrows. }
    change (serialize (MDetails o l label rows))
      with ("<details class=" +:+ q +:+ "jt-details" +:+ q
            +:+ (if o then " open" else "") +:+ " style=" +:+ q
            +:+ "margin-left:" +:+ indent_rem l +:+ "rem" +:+ q +:+ ">"
            +:+ "<summary class=" +:+ q +:+ "jt-summary" +:+ q +:+ ">" +:+ label
            +:+ "</summary>"
            +:+ String.concat "" (map serialize rows)
            +:+ "</details>").
    destruct o, e; solve_net.
Qed.

Lemma to_html_balanced fuel (h : heap) obj ed level (seen : gset addr)
    key kii mc msl html seen' :
  key_ok key kii ->
  interactive_json_tree._to_html fuel h obj ed level seen key kii mc msl
  = Some (html, seen') ->
  balanced html.
Proof.
  intros Hok Hrun. apply to_html_markup in Hrun as (m & Hm & ->).
  apply serialize_balanced.
  eapply to_markup_data_all; [| | |exact Hm|exact Hok].
  - apply balanced_key_prefix.
  - apply balanced_fmt_primitive.
  - intros. by apply balanced_summary_label.
Qed.

(** X6. The markup [_to_html] returns is balanced: it closes as many
    [details], [summary], [div], [span] and [em] elements as it opens,
    whatever texts the data holds, as long as a key printed as an index is
    not a string (the one label that is written without escaping). *)
Theorem markup_is_balanced fuel (h : heap) obj ed level (seen : gset addr)
    key kii mc msl html seen' :
  key_ok key kii ->
  interactive_json_tree._to_html fuel h obj ed level seen key kii mc msl
  = Some (html, seen') ->
  forall e, occ (open_tag e) html = occ (close_tag e) html.
Proof.
  intros Hok Hrun e. apply net_balance.
  by apply (to_html_balanced _ _ _ _ _ _ _ _ _ _ _ _ Hok Hrun).
Qed.

Lemma markup_is_balanced_witness :
  match interactive_json_tree._to_html 2 heap_readme (VRef 0%nat) 1 0 ∅ KNone false
          (Some 100) (Some 2000) with
  | Some (html, _) => occ (open_tag ESpan) html = occ (close_tag ESpan) html
  | None => False
  end.
Proof.
  destruct (interactive_json_tree._to_html 2 heap_readme (VRef 0%nat) 1 0 ∅ KNone
              false (Some 100) (Some 2000)) as [[html seen']|] eqn:Hrun.
  - refine (markup_is_balanced _ _ _ _ _ _ _ _ _ _ _ _ _ Hrun ESpan).
    intros Hidx. discriminate Hidx.
  - vm_compute in Hrun. discriminate Hrun.
Defined.

(** The unescaped index label is what the precondition is about: a string
    passed as an index key reaches the output as it is. *)
Example index_key_is_not_escaped :
  interactive_json_tree._to_html 0 ∅ (VPrim PNone) 1 0 ∅ (KStr "<div>") true None None
  = Some ("<div class=" +:+ q +:+ "jt-leaf" +:+ q +:+ " style=" +:+ q
          +:+ "margin-left:0.0rem" +:+ q +:+ "><span class=" +:+ q +:+ "jt-key" +:+ q
          +:+ ">[<div>]</span><span class=" +:+ q +:+ "jt-punct" +:+ q
          +:+ ">: </span><span class=" +:+ q +:+ "jt-null" +:+ q
          +:+ ">null</span></div>", ∅).
Proof. reflexivity. Qed.

(** ** Limits that nothing exceeds *)

Lemma for_rows_ext_in {A R} (f g : A -> gset addr -> option (R * gset addr))
    xs seen :
  (forall x s, x ∈ xs -> f x s = g x s) -> for_rows f xs seen = for_rows g xs seen.
Proof.
  revert seen. induction xs as [|x xs IH]; intros seen Hfg; simpl; [done|].
  rewrite Hfg by (by left).
  destruct (g x seen) as [[row seen1]|]; [|done].
  rewrite IH; [done|]. intros y s Hy. apply Hfg. by right.
Qed.

Lemma shown_fits {A} (xs : list A) mc :
  count_fits mc (length xs) -> shown xs mc = xs.
Proof.
  destruct mc as [m|]; simpl; [|done].
  intros Hfit. destruct (0 <=? m) eqn:Hm; [|done].
  apply Z.leb_le in Hm. apply take_ge. lia.
Qed.

Lemma visible_count_fits mc (n : nat) :
  count_fits mc n ->
  interactive_json_tree.visible_count mc (Z.of_nat n) = Z.of_nat n.
Proof.
  destruct mc as [m|]; simpl; [|done].
  intros Hfit. destruct (0 <=? m) eqn:Hm; [|done].
  apply Z.leb_le in Hm. lia.
Qed.

Lemma fmt_primitive_fits msl p :
  string_fits msl (VPrim p) ->
  interactive_json_tree.fmt_primitive msl p = json_tree.fmt_primitive p.
Proof.
  intros Hfit. unfold interactive_json_tree.fmt_primitive, json_tree.fmt_primitive.
  destruct p as [s| |b|z|t|r]; try done. simpl.
  replace (interactive_json_tree.string_too_long msl s) with false; [done|].
  destruct msl as [m|]; simpl in *; [|done].
  destruct (0 <=? m) eqn:Hm; [|done]. apply Z.leb_le in Hm.
  symmetry. apply Z.ltb_ge. lia.
Qed.

Lemma kv_items_length c : length (kv_items c) = length (children c).
Proof. by rewrite <- kv_items_children, length_fmap. Qed.

Lemma kv_items_value c kv : kv ∈ kv_items c -> kv.2 ∈ children c.
Proof.
  intros Hin. rewrite <- kv_items_children. apply list_elem_of_fmap. eauto.
Qed.

Lemma to_html_minimal_fresh_kv fuel (h : heap) a c ed level (seen : gset addr)
    key kii :
  h !! a = Some c -> a ∉ seen ->
  json_tree._to_html (S fuel) h (VRef a) ed level seen key kii
  = match for_rows
            (json_tree.child_row h
               (fun v seen k is_index =>
                  json_tree._to_html fuel h v (next_depth ed) (level + 1)
                    seen k is_index)
               level (is_seq c))
            (kv_items c) ({[a]} ∪ seen) with
    | None => None
    | Some (rows, seen') =>
        Some (json_tree.details ed level
                (json_tree.summary_label key kii (type_tag c)
                   (Z.of_nat (length (kv_items c))))
                rows, seen')
    end.
Proof.
  intros Ha Hfresh. simpl. rewrite Ha. rewrite decide_False by done.
  destruct c as [items|items]; simpl; [done|].
  by rewrite enumerate_length.
Qed.

Lemma to_html_within_limits_eq fuel (h : heap) obj ed level (seen : gset addr)
    key kii mc msl :
  limit_ok mc -> within_limits h mc msl -> string_fits msl obj ->
  interactive_json_tree._to_html fuel h obj ed level seen key kii mc msl
  = json_tree._to_html fuel h obj ed level seen key kii.
Proof.
  intros Hmc Hlim. revert obj ed level seen key kii.
  induction fuel as [|fuel IH]; intros obj ed level seen key kii Hobj.
  - destruct obj as [p|a]; simpl; [|done].
    by rewrite fmt_primitive_fits.
  - destruct obj as [p|a].
    { simpl. by rewrite fmt_primitive_fits. }
    destruct (h !! a) as [c|] eqn:Ha; [|by simpl; rewrite Ha].
    destruct (decide (a ∈ seen)) as [Hin|Hfresh].
    { by rewrite (to_html_revisit _ _ _ _ _ _ _ _ _ _ _ Ha Hin),
        (to_html_minimal_revisit _ _ _ _ _ _ _ _ _ Ha Hin). }
    rewrite (to_html_fresh_kv _ _ _ _ _ _ _ _ _ _ _ Ha Hfresh Hmc),
      (to_html_minimal_fresh_kv _ _ _ _ _ _ _ _ _ Ha Hfresh).
    destruct (Hlim a c Ha) as [Hcount Hstrings].
    rewrite <- kv_items_length in Hcount.
    cbv zeta. rewrite (shown_fits _ _ Hcount), (visible_count_fits _ _ Hcount).
    rewrite (for_rows_ext_in _
               (json_tree.child_row h
                  (fun v seen k is_index =>
                     json_tree._to_html fuel h v (next_depth ed) (level + 1)
                       seen k is_index) level (is_seq c))).
    2:{ intros [k v] s Hkv.
        apply kv_items_value in Hkv. simpl in Hkv.
        rewrite Forall_forall in Hstrings. specialize (Hstrings v Hkv).
        unfold interactive_json_tree.child_row, json_tree.child_row.
        destruct (classify h v) as [[items|items|p]|] eqn:Hv; try done.
        - by apply IH.
        - by apply IH.
        - destruct v as [p'|b]; simpl in Hv.
          + injection Hv as ->. by rewrite fmt_primitive_fits.
          + by destruct (h !! b) as [[|]|]. }
    destruct (for_rows _ _ _) as [[rows seen']|]; [|done].
    rewrite more_rows_none, app_nil_r.
    unfold interactive_json_tree.summary_label, json_tree.summary_label.
    by rewrite count_display_same.
Qed.

(** X7. Limits that nothing exceeds change nothing: when [max_children] is
    one that [islice] accepts (at most [sys.maxsize]), no container of the
    heap has more than [max_children] children and no string is longer than
    [max_string_length] (or the limit is [None] or negative), the extended
    renderer returns exactly what the minimal one returns. *)
Theorem limits_not_exceeded_change_nothing fuel (h : heap) obj ed level
    (seen : gset addr) key kii mc msl :
  limit_ok mc -> within_limits h mc msl -> string_fits msl obj ->
  interactive_json_tree._to_html fuel h obj ed level seen key kii mc msl
  = json_tree._to_html fuel h obj ed level seen key kii
  /\ interactive_json_tree._to_html fuel h obj ed level seen key kii mc msl
     = interactive_json_tree._to_html fuel h obj ed level seen key kii None None.
Proof.
  intros Hmc Hlim Hobj. split; [by apply to_html_within_limits_eq|].
  rewrite (to_html_within_limits_eq _ _ _ _ _ _ _ _ mc msl) by done.
  symmetry. by apply to_html_unlimited_eq.
Qed.

Lemma heap_readme_within_defaults : within_limits heap_readme (Some 100) (Some 2000).
Proof.
  unfold within_limits. intros a c Ha.
  destruct (decide (a = 0%nat)) as [->|Hne0].
  { vm_compute in Ha. injection Ha as <-.
    split; [right; vm_compute; discriminate|].
    repeat constructor. }
  destruct (decide (a = 1%nat)) as [->|Hne1].
  { vm_compute in Ha. injection Ha as <-.
    split; [right; vm_compute; discriminate|].
    repeat constructor. }
  unfold heap_readme in Ha.
  rewrite lookup_insert_ne, lookup_singleton_ne in Ha by done. discriminate Ha.
Defined.

Lemma limits_not_exceeded_change_nothing_witness :
  interactive_json_tree._to_html 2 heap_readme (VRef 0%nat) 1 0 ∅ KNone false
    (Some 100) (Some 2000)
  = json_tree._to_html 2 heap_readme (VRef 0%nat) 1 0 ∅ KNone false.
Proof.
  refine (proj1 (limits_not_exceeded_change_nothing 2 heap_readme (VRef 0%nat) 1 0
                   ∅ KNone false (Some 100) (Some 2000) _
                   heap_readme_within_defaults _)).
  - simpl. unfold sys_maxsize. lia.
  - exact I.
Defined.

(** ** The minimal renderer *)






(** ** Edge cases of the limits *)

(** X9. With [max_children = 0] a fresh container shows none of its
    children: the header reads [0/size] and one row reports all [size]
    children as left out (for an empty container the header reads [0] and
    there is no row at all).  The children are not looked at: the visited
    set gains the container only, and the call needs no more fuel, whatever
    the children refer to. *)
Theorem max_children_zero_shows_no_child fuel (h : heap) a c ed level
    (seen : gset addr) key kii msl :
  h !! a = Some c -> a ∉ seen ->
  let size := Z.of_nat (length (children c)) in
  interactive_json_tree._to_html (S fuel) h (VRef a) ed level seen key kii
    (Some 0) msl
  = Some (interactive_json_tree.details ed level
            (interactive_json_tree.key_prefix_html key kii +:+ type_tag c
             +:+ "<span class=" +:+ q +:+ "jt-punct" +:+ q +:+ ">("
             +:+ (if decide (size = 0) then "0" else "0/" +:+ pretty size)
             +:+ ")</span>")
            (if decide (size = 0) then []
             else [interactive_json_tree.more_row level size]),
          {[a]} ∪ seen).
Proof.
  intros Ha Hfresh size.
  rewrite (to_html_fresh_kv _ _ _ _ _ _ _ _ _ (Some 0) _ Ha Hfresh)
    by (simpl; unfold sys_maxsize; lia).
  cbv zeta. rewrite kv_items_length. fold size.
  change (shown (kv_items c) (Some 0)) with (take 0 (kv_items c)).
  rewrite take_0.
  change (interactive_json_tree.visible_count (Some 0) size) with (Z.min size 0).
  assert (0 <= size) as Hsize by (unfold size; lia).
  rewrite Z.min_r by done. cbn [for_rows app].
  unfold interactive_json_tree.summary_label, interactive_json_tree.count_display,
    interactive_json_tree.more_rows.
  destruct (decide (size = 0)) as [->|Hne]; [done|].
  rewrite (proj2 (Z.ltb_lt 0 size)) by lia.
  assert ((0 =? size) = false) as -> by (apply Z.eqb_neq; lia).
  simpl negb. cbv iota. by rewrite Z.sub_0_r.
Qed.

Lemma max_children_zero_shows_no_child_witness :
  interactive_json_tree._to_html 1 heap_three (VRef 0%nat) 1 0 ∅ KNone false
    (Some 0) None
  = Some (interactive_json_tree.details 1 0
            ("[] Array <span class=" +:+ q +:+ "jt-punct" +:+ q +:+ ">(0/3)</span>")
            [interactive_json_tree.more_row 0 3],
          {[0%nat]} ∪ ∅).
Proof.
  refine (max_children_zero_shows_no_child 0 heap_three 0%nat
            (CSeq [VPrim (PInt 1); VPrim (PInt 2); VPrim (PInt 3)])
            1 0 ∅ KNone false None _ _).
  - reflexivity.
  - apply not_elem_of_empty.
Defined.



Lemma substring_0_app p r : String.substring 0 (String.length p) (p +:+ r) = p.
Proof.
  induction p as [|c p IH]; [by destruct r|].
  rewrite app_cons. simpl. by rewrite IH.
Qed.

(** X11. What lies beyond the limit does not show: two strings longer than
    [max_string_length = m] that agree on their first [m] characters are
    rendered identically, as those characters (escaped) followed by [...]. *)
Theorem truncation_hides_the_tail (m : Z) (p r1 r2 : string) :
  py_len p = m -> r1 <> "" -> r2 <> "" ->
  interactive_json_tree.fmt_primitive (Some m) (PStr (p +:+ r1))
  = interactive_json_tree.fmt_primitive (Some m) (PStr (p +:+ r2))
  /\ interactive_json_tree.fmt_primitive (Some m) (PStr (p +:+ r1))
     = "<span class=" +:+ q +:+ "jt-str jt-str-trunc" +:+ q +:+ ">" +:+ q
       +:+ html_escape p +:+ "..." +:+ q +:+ "</span>".
Proof.
  intros Hp Hr1 Hr2.
  assert (Hcut : forall r, r <> "" ->
    interactive_json_tree.fmt_primitive (Some m) (PStr (p +:+ r))
    = "<span class=" +:+ q +:+ "jt-str jt-str-trunc" +:+ q +:+ ">" +:+ q
      +:+ html_escape p +:+ "..." +:+ q +:+ "</span>").
  { intros r Hr.
    unfold interactive_json_tree.fmt_primitive,
      interactive_json_tree.string_too_long. simpl.
    assert (0 <= m) as Hm by (unfold py_len in Hp; lia).
    assert (m < py_len (p +:+ r)) as Hlong.
    { unfold py_len in *. rewrite app_length_s. destruct r; [done|]. simpl. lia. }
    rewrite (proj2 (Z.leb_le 0 m) Hm), (proj2 (Z.ltb_lt m _) Hlong). simpl.
    unfold py_slice_to. rewrite <- Hp. unfold py_len.
    by rewrite Nat2Z.id, substring_0_app. }
  split; [by rewrite !Hcut|by apply Hcut].
Qed.

Lemma truncation_hides_the_tail_witness :
  interactive_json_tree.fmt_primitive (Some 2) (PStr "abX")
  = interactive_json_tree.fmt_primitive (Some 2) (PStr "abYZ").
Proof.
  refine (proj1 (truncation_hides_the_tail 2 "ab" "X" "YZ" _ _ _)).
  - reflexivity.
  - discriminate.
  - discriminate.
Defined.

(** ** Containers of primitives *)




(** ** The top-level functions *)

Lemma balanced_extended_style uid :
  lt_free uid = true -> balanced (interactive_json_tree.style uid).
Proof.
  intros Huid e. unfold interactive_json_tree.style, css, css2.
  destruct e; solve_net.
Qed.

Lemma balanced_minimal_style uid :
  lt_free uid = true -> balanced (json_tree.style uid).
Proof.
  intros Huid e. unfold json_tree.style, css, css2.
  destruct e; solve_net.
Qed.

Lemma balanced_wrapper uid body :
  lt_free uid = true -> balanced body ->
  balanced ("<div id=" +:+ q +:+ uid +:+ q +:+ " class=" +:+ q +:+ "jt"
            +:+ q +:+ ">" +:+ body +:+ "</div>").
Proof. intros Huid Hbody e. destruct e; solve_net. Qed.

Lemma lt_free_make_uid hex8 : lt_free hex8 = true -> lt_free (make_uid hex8) = true.
Proof. intros Hhex. unfold make_uid. by apply (lt_free_app "jt-"). Qed.

Lemma root_key_ok key : key_ok (kw_default KNone key) false.
Proof. intros Hidx. discriminate Hidx. Qed.

(** X14. The document a top-level function returns is balanced as a whole:
    style sheet, wrapper and tree together close every [style], [div],
    [details], [summary], [span] and [em] element they open, for both
    packages and for the [JSON] objects built on them, whenever the scope
    identifier holds no [<] (it is made of hexadecimal digits). *)
Theorem document_is_balanced hex8 fuel (h : heap) obj key ed mc msl :
  lt_free hex8 = true ->
  (forall out,
     interactive_json_tree.json_to_html_tree hex8 fuel h obj key ed mc msl
     = Some out ->
     forall e, occ (open_tag e) out = occ (close_tag e) out)
  /\ (forall out,
        interactive_json_tree.JSON hex8 fuel h obj ed mc msl = Some out ->
        forall e, occ (open_tag e) out = occ (close_tag e) out)
  /\ (forall out,
        json_tree.json_to_html_tree hex8 fuel h obj key ed = Some out ->
        forall e, occ (open_tag e) out = occ (close_tag e) out)
  /\ (forall out,
        json_tree.JSON hex8 fuel h obj ed = Some out ->
        forall e, occ (open_tag e) out = occ (close_tag e) out).
Proof.
  intros Hhex. pose proof (lt_free_make_uid _ Hhex) as Huid.
  assert (Hext : forall key ed mc msl out,
    interactive_json_tree.json_to_html_tree hex8 fuel h obj key ed mc msl
    = Some out ->
    forall e, occ (open_tag e) out = occ (close_tag e) out).
  { intros key0 ed0 mc0 msl0 out Hout e. apply net_balance. revert e.
    unfold interactive_json_tree.json_to_html_tree in Hout. cbv zeta in Hout.
    destruct (interactive_json_tree._to_html _ _ _ _ _ _ _ _ _ _)
      as [[body s']|] eqn:Hrun; [|done].
    injection Hout as <-.
    apply balanced_app; [by apply balanced_extended_style|].
    apply balanced_wrapper; [done|].
    eapply to_html_balanced; [|exact Hrun]. apply root_key_ok. }
  assert (Hmin : forall key ed out,
    json_tree.json_to_html_tree hex8 fuel h obj key ed = Some out ->
    forall e, occ (open_tag e) out = occ (close_tag e) out).
  { intros key0 ed0 out Hout e. apply net_balance. revert e.
    unfold json_tree.json_to_html_tree in Hout. cbv zeta in Hout.
    destruct (json_tree._to_html _ _ _ _ _ _ _ _) as [[body s']|] eqn:Hrun; [|done].
    injection Hout as <-.
    apply balanced_app; [by apply balanced_minimal_style|].
    apply balanced_wrapper; [done|].
    rewrite <- (to_html_unlimited_eq _ _ _ _ _ _ _ _ None None) in Hrun by done.
    eapply to_html_balanced; [|exact Hrun]. apply root_key_ok. }
  split; [apply Hext|]. split; [|split; [apply Hmin|]].
  - intros out. unfold interactive_json_tree.JSON. apply Hext.
  - intros out. unfold json_tree.JSON. apply Hmin.
Qed.

Lemma document_is_balanced_witness :
  match interactive_json_tree.json_to_html_tree "1a2b3c4d" 2 heap_readme
          (VRef 0%nat) Omitted Omitted Omitted Omitted with
  | Some out => occ (open_tag EDiv) out = occ (close_tag EDiv) out
  | None => False
  end.
Proof.
  destruct (interactive_json_tree.json_to_html_tree "1a2b3c4d" 2 heap_readme
              (VRef 0%nat) Omitted Omitted Omitted Omitted) as [out|] eqn:Hout.
  - refine (proj1 (document_is_balanced "1a2b3c4d" 2 heap_readme (VRef 0%nat)
                     Omitted Omitted Omitted Omitted _) out Hout EDiv).
    reflexivity.
  - vm_compute in Hout. discriminate Hout.
Defined.

Lemma app_same_length_inj (a b r r' : string) :
  String.length a = String.length b -> a +:+ r = b +:+ r' -> a = b.
Proof.
  revert b. induction a as [|c a IH]; intros [|c' b] Hlen Heq; try done.
  rewrite !app_cons in Heq. injection Heq as -> Heq.
  f_equal. apply IH; [by injection Hlen|done].
Qed.

Lemma extended_document_head hex8 fuel (h : heap) obj key ed mc msl out :
  interactive_json_tree.json_to_html_tree hex8 fuel h obj key ed mc msl = Some out ->
  exists rest, out = nl +:+ "<style>" +:+ nl +:+ "#jt-" +:+ hex8 +:+ rest.
Proof.
  unfold interactive_json_tree.json_to_html_tree. cbv zeta.
  destruct (interactive_json_tree._to_html _ _ _ _ _ _ _ _ _ _)
    as [[body s']|]; [|done].
  intros [= <-]. unfold interactive_json_tree.style at 1, css at 1, make_uid at 1.
  eexists. rewrite !app_assoc_s. reflexivity.
Qed.

(** X15. The scope identifier can be read off the document: two calls of
    [json_to_html_tree] whose identifiers are of the same length (eight
    digits) and differ never return the same document, whatever the values
    and options. *)
Theorem scope_id_is_in_the_document hex8 hex8' fuel fuel' (h h' : heap) obj obj'
    key key' ed ed' mc mc' msl msl' out :
  String.length hex8 = String.length hex8' ->
  interactive_json_tree.json_to_html_tree hex8 fuel h obj key ed mc msl = Some out ->
  interactive_json_tree.json_to_html_tree hex8' fuel' h' obj' key' ed' mc' msl'
  = Some out ->
  hex8 = hex8'.
Proof.
  intros Hlen Hout Hout'.
  apply extended_document_head in Hout as [rest ->].
  apply extended_document_head in Hout' as [rest' Heq].
  do 4 (apply (inj (String.append _)) in Heq).
  by apply app_same_length_inj in Heq.
Qed.

Lemma scope_id_is_in_the_document_witness : "1a2b3c4d" = "1a2b3c4d".
Proof.
  destruct (interactive_json_tree.json_to_html_tree "1a2b3c4d" 1 heap_three
              (VRef 0%nat) Omitted Omitted Omitted Omitted) as [out|] eqn:Hout.
  - exact (scope_id_is_in_the_document "1a2b3c4d" "1a2b3c4d" 1 1 heap_three
             heap_three (VRef 0%nat) (VRef 0%nat) Omitted Omitted Omitted Omitted
             Omitted Omitted Omitted Omitted out eq_refl Hout Hout).
  - vm_compute in Hout. discriminate Hout.
Defined.

(** X16. For data within the limits in force (those given, or the defaults
    100 and 2000), with a [max_children] that [islice] accepts (at most
    [sys.maxsize]), the two packages return documents that differ in their
    style sheets only: what follows the style sheet is the same text, and
    one call returns exactly when the other does.  The same holds for their
    [JSON] objects. *)
Theorem documents_differ_in_style_only hex8 fuel (h : heap) obj key ed mc msl :
  limit_ok (kw_default (Some 100) mc) ->
  within_limits h (kw_default (Some 100) mc) (kw_default (Some 2000) msl) ->
  string_fits (kw_default (Some 2000) msl) obj ->
  (exists rest,
     interactive_json_tree.json_to_html_tree hex8 fuel h obj key ed mc msl
     = (fun r => interactive_json_tree.style (make_uid hex8) +:+ r) <$> rest
     /\ json_tree.json_to_html_tree hex8 fuel h obj key ed
        = (fun r => json_tree.style (make_uid hex8) +:+ r) <$> rest)
  /\ (exists rest,
        interactive_json_tree.JSON hex8 fuel h obj ed mc msl
        = (fun r => interactive_json_tree.style (make_uid hex8) +:+ r) <$> rest
        /\ json_tree.JSON hex8 fuel h obj ed
           = (fun r => json_tree.style (make_uid hex8) +:+ r) <$> rest).
Proof.
  intros Hmc Hlim Hobj.
  assert (Hboth : forall key ed,
    exists rest,
      interactive_json_tree.json_to_html_tree hex8 fuel h obj key ed mc msl
      = (fun r => interactive_json_tree.style (make_uid hex8) +:+ r) <$> rest
      /\ json_tree.json_to_html_tree hex8 fuel h obj key ed
         = (fun r => json_tree.style (make_uid hex8) +:+ r) <$> rest).
  { intros key0 ed0.
    unfold interactive_json_tree.json_to_html_tree, json_tree.json_to_html_tree.
    cbv zeta. rewrite to_html_within_limits_eq by done.
    destruct (json_tree._to_html _ _ _ _ _ _ _ _) as [[body s']|].
    - by eexists (Some _).
    - by exists None. }
  split; [apply Hboth|].
  unfold interactive_json_tree.JSON, json_tree.JSON. cbv zeta.
  destruct (Hboth Omitted (Given (kw_default 1 ed))) as (rest & Hext & Hmin).
  exists rest. split; [|done].
  rewrite <- Hext. unfold interactive_json_tree.json_to_html_tree.
  by destruct mc, msl.
Qed.

Lemma documents_differ_in_style_only_witness :
  exists rest,
    interactive_json_tree.json_to_html_tree "1a2b3c4d" 2 heap_readme (VRef 0%nat)
      Omitted Omitted Omitted Omitted
    = (fun r => interactive_json_tree.style (make_uid "1a2b3c4d") +:+ r) <$> rest
    /\ json_tree.json_to_html_tree "1a2b3c4d" 2 heap_readme (VRef 0%nat)
         Omitted Omitted
       = (fun r => json_tree.style (make_uid "1a2b3c4d") +:+ r) <$> rest.
Proof.
  refine (proj1 (documents_differ_in_style_only "1a2b3c4d" 2 heap_readme
                   (VRef 0%nat) Omitted Omitted Omitted Omitted _
                   heap_readme_within_defaults _)).
  - simpl. unfold sys_maxsize. lia.
  - exact I.
Defined.

(** ** Out-of-range depth *)

(** X17. An [expand_depth] of zero or less is one and the same: every such
    value gives the output of [expand_depth = 0], in both renderers. *)
Theorem nonpositive_expand_depth_is_zero fuel (h : heap) obj ed level
    (seen : gset addr) key kii mc msl :
  ed <= 0 ->
  interactive_json_tree._to_html fuel h obj ed level seen key kii mc msl
  = interactive_json_tree._to_html fuel h obj 0 level seen key kii mc msl
  /\ json_tree._to_html fuel h obj ed level seen key kii
     = json_tree._to_html fuel h obj 0 level seen key kii.
Proof.
  intros Hed.
  assert (Hext : forall mc msl,
    interactive_json_tree._to_html fuel h obj ed level seen key kii mc msl
    = interactive_json_tree._to_html fuel h obj 0 level seen key kii mc msl).
  { intros mc0 msl0. destruct obj as [p|a]; [by rewrite !to_html_prim|].
    destruct (h !! a) as [c|] eqn:Ha; [|by destruct fuel; simpl; rewrite Ha].
    destruct (decide (a ∈ seen)) as [Hin|Hfresh].
    { by rewrite !(to_html_revisit _ _ _ _ _ _ _ _ _ _ _ Ha Hin). }
    destruct fuel as [|fuel].
    { by rewrite !(to_html_out_of_fuel _ _ _ _ _ _ _ _ _ _ Ha Hfresh). }
    destruct (decide (limit_ok mc0)) as [Hmc|Hmc].
    2:{ by rewrite !(to_html_limit_raises _ _ _ _ _ _ _ _ _ _ _ Ha Hfresh Hmc). }
    rewrite !(to_html_fresh_kv _ _ _ _ _ _ _ _ _ _ _ Ha Hfresh Hmc).
    assert (next_depth ed = next_depth 0) as -> by (unfold next_depth; lia).
    unfold interactive_json_tree.details.
    by rewrite (proj2 (Z.ltb_ge 0 ed)) by done. }
  split; [apply Hext|].
  by rewrite <- !(to_html_unlimited_eq _ _ _ _ _ _ _ _ None None), Hext.
Qed.

Lemma nonpositive_expand_depth_is_zero_witness :
  interactive_json_tree._to_html 2 heap_readme (VRef 0%nat) (-3) 0 ∅ KNone false
    (Some 100) (Some 2000)
  = interactive_json_tree._to_html 2 heap_readme (VRef 0%nat) 0 0 ∅ KNone false
      (Some 100) (Some 2000).
Proof.
  refine (proj1 (nonpositive_expand_depth_is_zero 2 heap_readme (VRef 0%nat) (-3) 0
                   ∅ KNone false (Some 100) (Some 2000) _)).
  lia.
Defined.

(** ** A limit that [islice] refuses *)



(** * The traversal: revisits, termination and expansion depth *)

(** ** The render follows the traversal *)

Lemma traverse_deterministic (h : heap) mc seen vs rs seen1 :
  traverse h mc seen vs rs seen1 ->
  forall rs' seen2, traverse h mc seen vs rs' seen2 -> rs' = rs /\ seen2 = seen1.
Proof.
  induction 1 as [seen|seen p vs rs seen' _ IH|seen a c vs rs seen' Ha Hin _ IH
                  |seen a c kids rows seen1 vs rs seen' Ha Hfresh Hkids _ IHkids _ IH];
    intros rs' seen2 Hother.
  - by inversion Hother.
  - inversion Hother; subst.
    by destruct (IH _ _ ltac:(eassumption)) as [-> ->].
  - inversion Hother; subst; [|done].
    by destruct (IH _ _ ltac:(eassumption)) as [-> ->].
  - inversion Hother as [| |? ? ? ? ? ? ? Hin|? ? c' kids' rows' seen1' ? rs1 ? Ha' _
                           Hkids' Hrows' Hrest]; subst; [done|].
    rewrite Ha in Ha'. injection Ha' as <-.
    rewrite Hkids in Hkids'. injection Hkids' as <-.
    destruct (IHkids _ _ Hrows') as [-> ->].
    by destruct (IH _ _ Hrest) as [-> ->].
Qed.

Lemma traverse_cons (h : heap) mc seen v r seen1 vs rs seen2 :
  traverse h mc seen [v] [r] seen1 -> traverse h mc seen1 vs rs seen2 ->
  traverse h mc seen (v :: vs) (r :: rs) seen2.
Proof.
  intros Hv Hvs.
  inversion Hv as [|? ? ? ? ? Hnil|? ? ? ? ? ? ? ? Hnil|? ? ? ? ? ? ? ? ? ? ? ? ? Hnil];
    subst; inversion Hnil; subst.
  - by constructor.
  - eapply traverse_revisit; eauto.
  - eapply traverse_enter; eauto.
Qed.

Lemma more_rows_flag {A} (xs : list A) mc :
  (interactive_json_tree.visible_count mc (Z.of_nat (length xs))
   <? Z.of_nat (length xs))
  = bool_decide (length (shown xs mc) < length xs)%nat.
Proof.
  destruct mc as [m|]; simpl.
  - destruct (0 <=? m) eqn:Hm.
    + apply Z.leb_le in Hm. rewrite length_take.
      case_bool_decide; [apply Z.ltb_lt|apply Z.ltb_ge]; lia.
    + rewrite Z.ltb_irrefl. by rewrite bool_decide_eq_false_2 by lia.
  - rewrite Z.ltb_irrefl. by rewrite bool_decide_eq_false_2 by lia.
Qed.

Lemma outline_more_rows {A} level (xs : list A) mc :
  map outline (markup_view.more_rows level (Z.of_nat (length xs))
                 (interactive_json_tree.visible_count mc (Z.of_nat (length xs))))
  = if bool_decide (length (shown xs mc) < length xs)%nat then [RMore] else [].
Proof.
  unfold markup_view.more_rows. rewrite more_rows_flag.
  by destruct (bool_decide _).
Qed.

(** The loop over the children walks them as [traverse] does. *)
Lemma for_rows_traverse (h : heap) mc msl level is_index
    (rec : value -> gset addr -> pykey -> bool -> option (markup * gset addr)) :
  (forall v s k i m s',
     rec v s k i = Some (m, s') -> traverse h mc s [v] [outline m] s') ->
  forall kvs seen rows seen',
    for_rows (markup_view.child_row h rec msl level is_index) kvs seen
    = Some (rows, seen') ->
    traverse h mc seen kvs.*2 (map outline rows) seen'.
Proof.
  intros Hrec kvs. induction kvs as [|[k v] kvs IH]; intros seen rows seen'.
  - simpl. intros [= <- <-]. constructor.
  - cbn [for_rows].
    destruct (markup_view.child_row h rec msl level is_index (k, v) seen)
      as [[row s1]|] eqn:Hrow; [|done].
    destruct (for_rows _ kvs s1) as [[rows1 s2]|] eqn:Hrows; [|done].
    intros [= <- <-]. apply IH in Hrows.
    apply markup_child_row_cases in Hrow as [(p & -> & -> & ->)|(b & -> & Hcall)].
    + by constructor.
    + apply traverse_cons with s1; [by apply Hrec in Hcall|done].
Qed.

(** Whenever the render returns, it has walked the value as [traverse]
    describes: its fragment tree is the traversal. *)
Lemma to_markup_traverse fuel (h : heap) obj ed level (seen : gset addr)
    key kii mc msl m seen' :
  markup_view._to_markup fuel h obj ed level seen key kii mc msl = Some (m, seen') ->
  traverse h mc seen [obj] [outline m] seen'.
Proof.
  revert obj ed level seen key kii m seen'.
  induction fuel as [|fuel IH]; intros obj ed level seen key kii m seen' Hrun;
    pose proof Hrun as Hcases;
    apply to_markup_cases in Hcases
      as [(p & -> & -> & ->)|[(a & c & -> & Ha & Hin & -> & ->)
         |(a & c & fuel' & rows & -> & Ha & Hfresh & Hfuel & Hrows & ->)]];
    try discriminate Hfuel;
    try (by repeat constructor);
    try (by eapply traverse_revisit; [eassumption|eassumption|constructor]).
  injection Hfuel as <-.
  destruct (decide (limit_ok mc)) as [Hmc|Hmc].
  2:{ by rewrite (to_markup_limit_raises _ _ _ _ _ _ _ _ _ _ _ Ha Hfresh Hmc) in Hrun. }
  apply (for_rows_traverse h mc) in Hrows.
  2:{ intros v s k i m0 s' Hcall. by apply IH in Hcall. }
  rewrite <- (shown_map snd), kv_items_children in Hrows.
  cbn [outline]. rewrite map_app, kv_items_length, outline_more_rows.
  apply traverse_enter with (c := c) (seen1 := seen');
    [done|done|by apply items_iter_ok|done|].
  constructor.
Qed.


Lemma outline_depths m d : map fst (sections_at d m) = section_depths d (outline m).
Proof.
  revert d.
  induction m as [l k i v| |l r|o l label rows IH] using markup_nested_ind;
    intros d; try done.
  cbn [sections_at outline section_depths map fst]. f_equal.
  induction IH as [|r rows Hr _ IHrows]; [done|].
  simpl. by rewrite map_app, Hr, IHrows.
Qed.

Lemma flagged_by_depth (f : nat -> bool) (l : list (nat * bool)) :
  (forall d o, In (d, o) l -> o = f d) ->
  l = map (fun d => (d, f d)) (map fst l).
Proof.
  induction l as [|[d o] l IH]; intros Hall; [done|].
  simpl. rewrite (Hall d o) by (by left). f_equal.
  apply IH. intros d' o' Hin. apply Hall. by right.
Qed.

(** ** Reading the sections off the output *)

Lemma scan_step d c s :
  scan_sections d (String c s)
  = if String.prefix DETAILS_TAG (String c s) then
      (d, String.prefix DETAILS_OPEN (String c s)) :: scan_sections (S d) s
    else if String.prefix DETAILS_END (String c s) then scan_sections (Nat.pred d) s
    else scan_sections d s.
Proof. reflexivity. Qed.

Lemma depth_step d c s :
  depth_after d (String c s)
  = if String.prefix DETAILS_TAG (String c s) then depth_after (S d) s
    else if String.prefix DETAILS_END (String c s) then depth_after (Nat.pred d) s
    else depth_after d s.
Proof. reflexivity. Qed.

Lemma sealed_cons pat c s :
  sealed pat (String c s) = true ->
  settled pat (String c s) = true /\ sealed pat s = true.
Proof. intros Hs. by apply andb_prop in Hs. Qed.

Lemma scan_app s1 s2 :
  sealed DETAILS_TAG s1 = true -> sealed DETAILS_OPEN s1 = true ->
  sealed DETAILS_END s1 = true ->
  forall d,
    scan_sections d (s1 +:+ s2)
    = (scan_sections d s1 ++ scan_sections (depth_after d s1) s2)%list
    /\ depth_after d (s1 +:+ s2) = depth_after (depth_after d s1) s2.
Proof.
  induction s1 as [|c s1 IH]; intros Ht Ho He d; [done|].
  apply sealed_cons in Ht as [Ht1 Ht].
  apply sealed_cons in Ho as [Ho1 Ho].
  apply sealed_cons in He as [He1 He].
  rewrite app_cons, !scan_step, !depth_step.
  rewrite <- !(app_cons c s1 s2).
  rewrite (settled_decided _ _ s2 Ht1), (settled_decided _ _ s2 Ho1),
    (settled_decided _ _ s2 He1).
  destruct (String.prefix DETAILS_TAG (String c s1)).
  { destruct (IH Ht Ho He (S d)) as [-> ->]. done. }
  destruct (String.prefix DETAILS_END (String c s1)).
  { destruct (IH Ht Ho He (Nat.pred d)) as [-> ->]. done. }
  destruct (IH Ht Ho He d) as [-> ->]. done.
Qed.

Lemma reads_app s1 s2 f1 g1 f2 g2 :
  reads s1 f1 g1 -> reads s2 f2 g2 ->
  reads (s1 +:+ s2) (fun d => f1 d ++ f2 (g1 d))%list (fun d => g2 (g1 d)).
Proof.
  intros (Ht1 & Ho1 & He1 & H1) (Ht2 & Ho2 & He2 & H2).
  split; [by apply sealed_app|]. split; [by apply sealed_app|].
  split; [by apply sealed_app|].
  intros d. destruct (scan_app s1 s2 Ht1 Ho1 He1 d) as [-> ->].
  destruct (H1 d) as [-> ->]. by destruct (H2 (g1 d)) as [-> ->].
Qed.

Lemma reads_ext s f g f' g' :
  reads s f g -> (forall d, f d = f' d) -> (forall d, g d = g' d) -> reads s f' g'.
Proof.
  intros (Ht & Ho & He & H) Hf Hg. repeat split; try done; destruct (H d) as [? ?].
  - by rewrite <- Hf.
  - by rewrite <- Hg.
Qed.

Lemma quiet_app s1 s2 : quiet s1 -> quiet s2 -> quiet (s1 +:+ s2).
Proof.
  intros H1 H2. eapply reads_ext; [by apply reads_app|done|done].
Qed.

Lemma quiet_empty : quiet "".
Proof. by repeat split. Qed.

Lemma reads_quiet_l s1 s2 f g : quiet s1 -> reads s2 f g -> reads (s1 +:+ s2) f g.
Proof.
  intros H1 H2. eapply reads_ext; [by apply reads_app|done|done].
Qed.

Lemma occ_cons_zero pat c s :
  occ pat (String c s) = 0%nat ->
  String.prefix pat (String c s) = false /\ occ pat s = 0%nat.
Proof.
  change (occ pat (String c s))
    with ((if String.prefix pat (String c s) then 1 else 0) + occ pat s)%nat.
  destruct (String.prefix pat (String c s)); [lia|done].
Qed.

Lemma no_tag_scan s :
  occ DETAILS_TAG s = 0%nat -> occ DETAILS_END s = 0%nat ->
  forall d, scan_sections d s = [] /\ depth_after d s = d.
Proof.
  induction s as [|c s IH]; intros Ht He d; [done|].
  apply occ_cons_zero in Ht as [Ht1 Ht]. apply occ_cons_zero in He as [He1 He].
  rewrite scan_step, depth_step, Ht1, He1. by apply IH.
Qed.

Lemma quietb_sound s : quietb s = true -> quiet s.
Proof.
  unfold quietb. intros H.
  apply andb_prop in H as [H He0]. apply andb_prop in H as [H Ht0].
  apply andb_prop in H as [H He]. apply andb_prop in H as [Ht Ho].
  apply Nat.eqb_eq in Ht0, He0.
  split; [done|]. split; [done|]. split; [done|]. by apply no_tag_scan.
Qed.

Lemma quiet_lt_free s : lt_free s = true -> quiet s.
Proof.
  intros Hs.
  destruct (lt_free_tagless "details" s Hs) as [Ht Ht0].
  destruct (lt_free_tagless "/details>" s Hs) as [He He0].
  assert (DETAILS_OPEN = String "<" (String.substring 1 40 DETAILS_OPEN)) as Hopen
    by reflexivity.
  destruct (lt_free_tagless (String.substring 1 40 DETAILS_OPEN) s Hs) as [Ho _].
  rewrite <- Hopen in Ho.
  split; [done|]. split; [done|]. split; [done|]. by apply no_tag_scan.
Qed.

(** Split a concatenation into its pieces and settle each of them. *)
Ltac quiet_atom :=
  first
    [ assumption
    | apply quiet_empty
    | apply quiet_lt_free; first [reflexivity | solve [auto with lt_free]]
    | apply quietb_sound; vm_compute; reflexivity ].

Ltac solve_quiet :=
  repeat lazymatch goal with
    | |- quiet (_ +:+ _) => apply quiet_app
    | |- quiet (if ?b then _ else _) => destruct b
    end;
  quiet_atom.

Lemma quiet_key_prefix k is_index :
  key_ok k is_index -> quiet (interactive_json_tree.key_prefix_html k is_index).
Proof.
  intros Hok. unfold interactive_json_tree.key_prefix_html.
  destruct k as [|s|z]; [solve_quiet| |].
  - destruct is_index; [by destruct (Hok eq_refl s)|].
    unfold interactive_json_tree.esc. solve_quiet.
  - destruct is_index; unfold interactive_json_tree.esc; simpl str_key; solve_quiet.
Qed.

Lemma quiet_fmt_primitive msl p : quiet (interactive_json_tree.fmt_primitive msl p).
Proof.
  unfold interactive_json_tree.fmt_primitive, interactive_json_tree.esc.
  destruct p as [s| |b|z|t|r]; simpl.
  - destruct (interactive_json_tree.string_too_long msl s); solve_quiet.
  - solve_quiet.
  - destruct b; solve_quiet.
  - solve_quiet.
  - solve_quiet.
  - solve_quiet.
Qed.

Lemma quiet_summary_label k is_index c visible size :
  key_ok k is_index ->
  quiet (interactive_json_tree.summary_label k is_index (type_tag c) visible size).
Proof.
  intros Hok. pose proof (quiet_key_prefix _ _ Hok) as Hkey.
  unfold interactive_json_tree.summary_label, interactive_json_tree.count_display.
  destruct c; simpl type_tag;
    destruct (negb (visible =? size)); solve_quiet.
Qed.

Lemma reads_concat rows :
  Forall (fun r => reads (serialize r) (fun d => sections_at d r) (fun d => d)) rows ->
  reads (String.concat "" (map serialize rows))
    (fun d => flat_map (sections_at d) rows) (fun d => d).
Proof.
  induction 1 as [|r rows Hr _ IH]; [apply quiet_empty|].
  change (map serialize (r :: rows)) with ([serialize r] ++ map serialize rows)%list.
  rewrite concat_app_s.
  change (String.concat "" [serialize r]) with (serialize r).
  eapply reads_ext; [by apply reads_app|done|done].
Qed.

Lemma reads_details_head (o : bool) :
  reads (DETAILS_HEAD o) (fun d => [(d, o)]) S.
Proof.
  destruct o; (split; [by vm_compute|]; split; [by vm_compute|];
               split; [by vm_compute|]; intros d; split; reflexivity).
Qed.

Lemma reads_details_end : reads DETAILS_END (fun _ => []) Nat.pred.
Proof.
  split; [by vm_compute|]. split; [by vm_compute|]. split; [by vm_compute|].
  intros d. split; reflexivity.
Qed.

(** Written out, a fragment tree reads as its own sections. *)
Lemma serialize_reads m :
  data_all quiet m -> reads (serialize m) (fun d => sections_at d m) (fun d => d).
Proof.
  induction m as [l k i v| |l r|o l label rows IH] using markup_nested_ind;
    intros Hm.
  - inversion Hm as [? ? ? ? Hkey Hval| | |]; subst.
    change (quiet (serialize (MLeaf l k i v))). cbn [serialize]. solve_quiet.
  - change (quiet (serialize MCircular)). apply quietb_sound. by vm_compute.
  - change (quiet (serialize (MMore l r))). cbn [serialize]. solve_quiet.
  - inversion Hm as [| | |? ? ? ? Hlabel Hrows]; subst.
    assert (Hall : reads (String.concat "" (map serialize rows))
                     (fun d => flat_map (sections_at d) rows) (fun d => d)).
    { apply reads_concat. rewrite Forall_forall in IH, Hrows. apply Forall_forall.
      intros r Hr. by apply IH, Hrows. }
    destruct o;
      lazymatch goal with
      | |- reads (serialize (MDetails ?o _ _ _)) _ _ =>
          change (serialize (MDetails o l label rows))
            with (DETAILS_HEAD o +:+ q
                  +:+ "margin-left:" +:+ indent_rem l +:+ "rem" +:+ q +:+ ">"
                  +:+ "<summary class=" +:+ q +:+ "jt-summary" +:+ q +:+ ">"
                  +:+ label +:+ "</summary>"
                  +:+ String.concat "" (map serialize rows)
                  +:+ DETAILS_END)
      end;
      (eapply reads_ext;
       [ apply reads_app; [apply reads_details_head|];
         do 13 (apply reads_quiet_l; [solve_quiet|]);
         apply reads_app; [exact Hall|apply reads_details_end]
       | intros d; cbn [sections_at app]; by rewrite app_nil_r
       | done ]).
Qed.

(** The sections read off the output are those of the fragment tree. *)
Lemma to_html_sections fuel (h : heap) obj ed level (seen : gset addr)
    key kii mc msl m seen' :
  markup_view._to_markup fuel h obj ed level seen key kii mc msl = Some (m, seen') ->
  key_ok key kii ->
  sections_of (serialize m) = sections_at 0 m.
Proof.
  intros Hm Hok.
  assert (data_all quiet m) as Hdata.
  { eapply to_markup_data_all; [| | |exact Hm|exact Hok].
    - apply quiet_key_prefix.
    - apply quiet_fmt_primitive.
    - intros. by apply quiet_summary_label. }
  destruct (serialize_reads m Hdata) as (_ & _ & _ & Hscan).
  unfold sections_of. by destruct (Hscan 0%nat) as [-> _].
Qed.

(** ** Expansion depth *)

(** C5. Whenever [_to_html] returns (a key printed as an index not being a
    string):
    - the [<details>] of a fresh container carries the [open] attribute
      exactly when the [expand_depth] of the call is positive, and its rows
      are the leaf lines of its primitive children and the results of the
      recursive calls on its container children, each made with
      [max(expand_depth - 1, 0)], one level further in;
    - hence the sections that are read off the output are those of the
      traversal of the value, in the order of the walk, each at the depth of
      its container below the root, and a section at depth [d] is open
      exactly when [d < expand_depth]: none for [expand_depth <= 0], the
      first [N] levels for [expand_depth = N > 0]. *)
Theorem expand_depth_opens fuel (h : heap) obj ed level (seen : gset addr)
    key kii mc msl html seen' :
  interactive_json_tree._to_html fuel h obj ed level seen key kii mc msl
  = Some (html, seen') ->
  key_ok key kii ->
  (forall a c, obj = VRef a -> h !! a = Some c -> a ∉ seen ->
     exists fuel' rows label more,
       fuel = S fuel'
       /\ child_rows
            (fun v seen k =>
               interactive_json_tree._to_html fuel' h v (Z.max (ed - 1) 0)
                 (level + 1) seen k (is_seq c) mc msl)
            (fun k p =>
               "<div class=" +:+ q +:+ "jt-leaf" +:+ q +:+ " style=" +:+ q
               +:+ "margin-left:" +:+ indent_rem (level + 1) +:+ "rem" +:+ q +:+ ">"
               +:+ interactive_json_tree.key_prefix_html k (is_seq c)
               +:+ interactive_json_tree.fmt_primitive msl p +:+ "</div>")
            (shown (kv_items c) mc) ({[a]} ∪ seen) rows seen'
       /\ html
          = "<details class=" +:+ q +:+ "jt-details" +:+ q
            +:+ (if 0 <? ed then " open" else "") +:+ " style=" +:+ q
            +:+ "margin-left:" +:+ indent_rem level +:+ "rem" +:+ q +:+ ">"
            +:+ "<summary class=" +:+ q +:+ "jt-summary" +:+ q +:+ ">" +:+ label
            +:+ "</summary>"
            +:+ String.concat "" (rows ++ more)
            +:+ "</details>")
  /\ exists r,
       traverse h mc seen [obj] [r] seen'
       /\ (forall r' s, traverse h mc seen [obj] [r'] s -> r' = r /\ s = seen')
       /\ sections_of html
          = map (fun d => (d, Z.of_nat d <? ed)) (section_depths 0 r).
Proof.
  intros Hrun Hok. split.
  - intros a c -> Ha Hfresh.
    destruct fuel as [|fuel].
    { by rewrite (to_html_out_of_fuel _ _ _ _ _ _ _ _ _ _ Ha Hfresh) in Hrun. }
    destruct (decide (limit_ok mc)) as [Hmc|Hmc].
    2:{ by rewrite (to_html_limit_raises _ _ _ _ _ _ _ _ _ _ _ Ha Hfresh Hmc) in Hrun. }
    rewrite (to_html_fresh_kv _ _ _ _ _ _ _ _ _ _ _ Ha Hfresh Hmc) in Hrun.
    cbv zeta in Hrun.
    destruct (for_rows _ _ _) as [[rows s']|] eqn:Hrows; [|done].
    injection Hrun as <- <-.
    exists fuel, rows. eexists _, _. split; [done|].
    split; [by apply for_rows_child_rows in Hrows|]. reflexivity.
  - apply to_html_markup in Hrun as (m & Hm & ->).
    pose proof (to_markup_traverse _ _ _ _ _ _ _ _ _ _ _ _ Hm) as Htr.
    exists (outline m). split; [done|]. split.
    + intros r' s Hother.
      destruct (traverse_deterministic _ _ _ _ _ _ Htr _ _ Hother) as [Heq ->].
      by injection Heq as ->.
    + rewrite (to_html_sections _ _ _ _ _ _ _ _ _ _ _ _ Hm Hok).
      rewrite <- outline_depths. apply flagged_by_depth.
      intros d o Hin.
      destruct (to_markup_sections _ _ _ _ _ _ _ _ _ _ _ _ Hm 0%nat d o Hin)
        as [_ ->].
      by rewrite Nat.sub_0_r.
Qed.

(** Two dicts that refer to each other, [expand_depth = 1]: the root is
    open, the dict inside it is closed. *)
Lemma expand_depth_opens_witness :
  match interactive_json_tree._to_html 2 heap_mutual (VRef 0%nat) 1 0 ∅ KNone false
          (Some 100) (Some 2000) with
  | Some (html, _) => sections_of html = [(0%nat, true); (1%nat, false)]
  | None => False
  end.
Proof.
  destruct (interactive_json_tree._to_html 2 heap_mutual (VRef 0%nat) 1 0 ∅ KNone
              false (Some 100) (Some 2000)) as [[html seen']|] eqn:Hrun.
  - destruct (expand_depth_opens _ _ _ _ _ _ _ _ _ _ _ _ Hrun)
      as (_ & r & _ & Huniq & Hsec); [intros Hidx; discriminate Hidx|].
    assert (Htr : traverse heap_mutual (Some 100) ∅ [VRef 0%nat]
                    [RSection [RSection [RMarker]]]
                    ({[1%nat]} ∪ ({[0%nat]} ∪ ∅))).
    { apply (traverse_enter heap_mutual (Some 100) ∅ 0%nat
               (CMap [(KStr "b", VRef 1%nat)]) [VRef 1%nat] [RSection [RMarker]]
               ({[1%nat]} ∪ ({[0%nat]} ∪ ∅)) [] [] _ eq_refl);
        [apply not_elem_of_empty|reflexivity| |constructor].
      apply (traverse_enter heap_mutual (Some 100) _ 1%nat
               (CMap [(KStr "a", VRef 0%nat)]) [VRef 0%nat] [RMarker]
               ({[1%nat]} ∪ ({[0%nat]} ∪ ∅)) [] [] _ eq_refl);
        [set_solver|reflexivity| |constructor].
      apply (traverse_revisit heap_mutual (Some 100) _ 0%nat
               (CMap [(KStr "b", VRef 1%nat)]) [] [] _ eq_refl);
        [set_solver|constructor]. }
    destruct (Huniq _ _ Htr) as [<- _]. exact Hsec.
  - vm_compute in Hrun. discriminate Hrun.
Defined.

(** ** Termination and revisits *)









